(** * subtitles-generator: the segment translation and subtitle pipeline

    A shallow embedding of [src/index.js]: the time formatter
    [secondsToSrtTime], the subtitle builder [buildSrtFromSegments], the
    concurrent translator [translateSegmentsWithGPT] (with [Promise.all]
    modelled as the index-addressed buffer of the language standard) and the
    orchestration loop [main] with its single [try]/[catch].

    Modelling conventions.
    - A JS number is a [number]: a finite value, idealised as an exact
      rational, or one of NaN, +Infinity, -Infinity.  The rounding error of
      double arithmetic and the sign of zero are outside the model (a
      negative zero prints as "0", like the zero of the model).
    - A JS object is a finite map from property names to values
      ([gmap string value]); reading an absent property gives [VUndefined];
      object spread followed by a property is map insertion.
    - Conversions that the idealisation does not determine (the decimal
      rendering of a non-integral number, parsing a string as a number, the
      primitive value of a nested object) are fields of the [Runtime] class.
    - A string is a sequence of bytes; [trim] removes the white space of
      the ASCII range.
    - Asynchronous code is written in a state-and-exception monad [M]; the
      order in which concurrent requests settle is an explicit argument. *)

From Stdlib Require Import Ascii QArith Qround Lqa.
From stdpp Require Import base numbers list strings gmap pretty.

Local Open Scope string_scope.
Local Open Scope Z_scope.

(** ** Numbers *)

Inductive number :=
  | Fin (q : Q)
  | NaN
  | PosInf
  | NegInf.

(** [Math.floor]. *)
Definition Math_floor (x : number) : number :=
  match x with
  | Fin q => Fin (inject_Z (Qfloor q))
  | _ => x
  end.

(** [Math.round]: the nearest integer, a tie going towards +Infinity. *)
Definition Math_round (x : number) : number :=
  match x with
  | Fin q => Fin (inject_Z (Qfloor (q + (1 # 2))))
  | _ => x
  end.

(** Truncation towards zero, the quotient that [%] uses. *)
Definition Qtrunc (q : Q) : Z :=
  if Qle_bool 0 q then Qfloor q else Qceiling q.

(** [x / d], [x % d] and [x * d] for a finite positive literal [d], the only
    form in which the source uses these operators. *)
Definition num_div (x : number) (d : Q) : number :=
  match x with
  | Fin q => Fin (q / d)
  | _ => x
  end.

Definition num_rem (x : number) (d : Q) : number :=
  match x with
  | Fin q => Fin (q - d * inject_Z (Qtrunc (q / d)))
  | _ => NaN
  end.

Definition num_mul (x : number) (d : Q) : number :=
  match x with
  | Fin q => Fin (q * d)
  | _ => x
  end.

(** [x - y]. *)
Definition num_sub (x y : number) : number :=
  match x, y with
  | NaN, _ | _, NaN => NaN
  | Fin a, Fin b => Fin (a - b)
  | Fin _, PosInf => NegInf
  | Fin _, NegInf => PosInf
  | PosInf, PosInf => NaN
  | PosInf, _ => PosInf
  | NegInf, NegInf => NaN
  | NegInf, _ => NegInf
  end.

(** ** Values and objects *)

Inductive value :=
  | VUndefined
  | VNull
  | VBool (b : bool)
  | VNum (n : number)
  | VStr (s : string)
  | VRef (l : positive).

(** The conversions of the JS runtime that exact rationals do not determine.
    [NumberToString] is Number::toString on finite numbers; on an integer of
    magnitude below 10^21 it is the decimal numeral. *)
Class Runtime := {
  NumberToString : Q → string;
  NumberToString_integer : ∀ (q : Q) (z : Z),
    Z.abs z < 10 ^ 21 → Qeq q (inject_Z z) → NumberToString q = pretty z;
  StringToNumber : string → number;
  RefToNumber : positive → number;
  RefToString : positive → string
}.

Section Conversions.
Context {RT : Runtime}.

(** [String(n)] of a number. *)
Definition String_ (n : number) : string :=
  match n with
  | Fin q => NumberToString q
  | NaN => "NaN"
  | PosInf => "Infinity"
  | NegInf => "-Infinity"
  end.

Definition ToNumber (v : value) : number :=
  match v with
  | VUndefined => NaN
  | VNull => Fin 0
  | VBool true => Fin 1
  | VBool false => Fin 0
  | VNum n => n
  | VStr s => StringToNumber s
  | VRef l => RefToNumber l
  end.

Definition ToString (v : value) : string :=
  match v with
  | VUndefined => "undefined"
  | VNull => "null"
  | VBool true => "true"
  | VBool false => "false"
  | VNum n => String_ n
  | VStr s => s
  | VRef l => RefToString l
  end.
End Conversions.

(** ** Strings *)

Definition LF : string := String (ascii_of_nat 10) "".

(** The first [n] characters of [filler] repeated; [cur] is what is left of
    the copy being read. *)
Fixpoint fill_cyclic (n : nat) (cur filler : string) : string :=
  match n with
  | O => ""
  | S n' =>
      match cur with
      | String c r => String c (fill_cyclic n' r filler)
      | EmptyString =>
          match filler with
          | String c r => String c (fill_cyclic n' r filler)
          | EmptyString => ""
          end
      end
  end.

(** [s.padStart(targetLength, padString)]. *)
Definition padStart (s : string) (targetLength : nat) (padString : string) : string :=
  if (targetLength <=? String.length s)%nat then s
  else fill_cyclic (targetLength - String.length s) padString padString +:+ s.

(** ** secondsToSrtTime *)

Section Formatter.
Context {RT : Runtime}.

Definition secondsToSrtTime (totalSeconds : number) : string :=
  let hours := Math_floor (num_div totalSeconds 3600) in
  let minutes := Math_floor (num_div (num_rem totalSeconds 3600) 60) in
  let seconds := Math_floor (num_rem totalSeconds 60) in
  let milliseconds :=
    Math_round (num_mul (num_sub totalSeconds (Math_floor totalSeconds)) 1000) in
  let hh := padStart (String_ hours) 2 "0" in
  let mm := padStart (String_ minutes) 2 "0" in
  let ss := padStart (String_ seconds) 2 "0" in
  let mmm := padStart (String_ milliseconds) 3 "0" in
  hh +:+ ":" +:+ mm +:+ ":" +:+ ss +:+ "," +:+ mmm.
End Formatter.

(** ** buildSrtFromSegments *)

(** Property read [o.k]: an absent property reads as [undefined]. *)
Definition get (o : gmap string value) (k : string) : value :=
  default VUndefined (o !! k).

(** [array.forEach(callback)] for a callback that updates one local
    variable: the callback receives the element and its index. *)
Fixpoint forEach_from {A St : Type} (callback : St → A → nat → St)
    (array : list A) (i : nat) (acc : St) : St :=
  match array with
  | [] => acc
  | x :: rest => forEach_from callback rest (S i) (callback acc x i)
  end.

Definition forEach {A St : Type} (callback : St → A → nat → St)
    (array : list A) (acc : St) : St :=
  forEach_from callback array 0%nat acc.

Section Builder.
Context {RT : Runtime}.

(** The index [i] of an array element is an integer below 2^32, and
    [i + 1] is printed as its decimal numeral. *)
Definition buildSrtFromSegments (segments : list (gmap string value)) : string :=
  let srt := "" in
  forEach (λ srt seg i,
    let startTime := secondsToSrtTime (ToNumber (get seg "start")) in
    let endTime := secondsToSrtTime (ToNumber (get seg "end")) in
    let srt := srt +:+ (pretty (Z.of_nat i + 1) +:+ LF) in
    let srt := srt +:+ (startTime +:+ " --> " +:+ endTime +:+ LF) in
    let srt := srt +:+ (ToString (get seg "text") +:+ LF +:+ LF) in
    srt) segments srt.
End Builder.

(** ** Exceptions, promises and effects *)

Inductive error :=
  | TypeError (msg : string)
  | RequestError (cause : string)
  | IOError (cause : string).

(** How a promise settles. *)
Inductive settled (A : Type) :=
  | Fulfilled (a : A)
  | Rejected (e : error).
Arguments Fulfilled {A} a.
Arguments Rejected {A} e.

(** How an evaluation ends: with a value, with a thrown exception, or
    suspended for ever at an [await]. *)
Inductive completion (A : Type) :=
  | Normal (a : A)
  | Throw (e : error)
  | Pending.
Arguments Normal {A} a.
Arguments Throw {A} e.
Arguments Pending {A}.

(** [await Promise.all(promises)].  [order] lists the indices of the promises
    in the order in which they settle.  A fulfilled promise stores its value
    in the slot of its own index and decrements the count of outstanding
    promises; the count reaching zero fulfils the whole with the buffer; the
    first rejection rejects the whole.  A promise settles once. *)
Fixpoint Promise_all_loop {A : Type} (promises : list (settled A))
    (order : list nat) (values : list (option A)) (remaining : nat)
    : completion (list A) :=
  match order with
  | [] => Pending
  | index :: order' =>
      match promises !! index, values !! index with
      | Some (Rejected e), _ => Throw e
      | Some (Fulfilled v), Some None =>
          let values := <[index := Some v]> values in
          let remaining := (remaining - 1)%nat in
          if (remaining =? 0)%nat then Normal (omap id values)
          else Promise_all_loop promises order' values remaining
      | _, _ => Promise_all_loop promises order' values remaining
      end
  end.

Definition await_Promise_all {A : Type} (promises : list (settled A))
    (order : list nat) : completion (list A) :=
  match promises with
  | [] => Normal []
  | _ => Promise_all_loop promises order
           (replicate (length promises) None) (length promises)
  end.

(** The chat-completion request and response of the Translation Client. *)
Record RequestMessage := { role : string; content : value }.
Record ChatRequest := { model : string; messages : list RequestMessage }.

Record ResponseMessage := { message_content : option string }.
Record Choice := { message : option ResponseMessage }.
Record ChatCompletion := { choices : list Choice }.
Record Response := { data : ChatCompletion }.

Inductive file :=
  | AudioOf (video : string)
  | TextFile (text : string)
  | VideoWith (video srt : string).

Inductive console_line :=
  | Log (line : string)
  | Error (line : string) (err : error).

Record State := {
  files : gmap string file;
  console : list console_line;
  requests : list ChatRequest
}.

Definition M (A : Type) : Type := State → completion A * State.

Global Instance M_ret : MRet M := λ A a s, (Normal a, s).
Global Instance M_bind : MBind M := λ A B f m s,
  match m s with
  | (Normal a, s') => f a s'
  | (Throw e, s') => (Throw e, s')
  | (Pending, s') => (Pending, s')
  end.

Definition throw {A : Type} (e : error) : M A := λ s, (Throw e, s).

(** [await p] for a promise that has its settlement. *)
Definition await {A : Type} (p : settled A) : M A :=
  match p with
  | Fulfilled a => mret a
  | Rejected e => throw e
  end.

Definition lift {A : Type} (c : completion A) : M A := λ s, (c, s).

(** [try { body } catch (err) { handler }]. *)
Definition try_catch (body : M unit) (handler : error → M unit) : M unit := λ s,
  match body s with
  | (Throw e, s') => handler e s'
  | r => r
  end.

(** [array.map(callback)] for a callback with effects. *)
Fixpoint map_from {A B : Type} (callback : A → nat → M B)
    (array : list A) (i : nat) : M (list B) :=
  match array with
  | [] => mret []
  | x :: rest =>
      y ← callback x i;
      ys ← map_from callback rest (S i);
      mret (y :: ys)
  end.

Definition Array_map {A B : Type} (callback : A → nat → M B)
    (array : list A) : M (list B) :=
  map_from callback array 0%nat.

(** [for (const x of array) { body }]. *)
Fixpoint for_of {A : Type} (array : list A) (body : A → M unit) : M unit :=
  match array with
  | [] => mret ()
  | x :: rest => _ ← body x; for_of rest body
  end.

Definition console_log (line : string) : M unit := λ s,
  (Normal (), {| files := files s; console := console s ++ [Log line];
                 requests := requests s |}).

Definition console_error (line : string) (err : error) : M unit := λ s,
  (Normal (), {| files := files s; console := console s ++ [Error line err];
                 requests := requests s |}).

(** ** String.prototype.trim *)

(** The white space and line terminators of the ASCII range: TAB, LF, VT,
    FF, CR and SP. *)
Definition is_white_space (c : ascii) : bool :=
  match nat_of_ascii c with
  | 9%nat | 10%nat | 11%nat | 12%nat | 13%nat | 32%nat => true
  | _ => false
  end.

Fixpoint trimStart (s : string) : string :=
  match s with
  | String c r => if is_white_space c then trimStart r else s
  | EmptyString => ""
  end.

Definition trim (s : string) : string :=
  String.rev (trimStart (String.rev (trimStart s))).

(** ** translateSegmentsWithGPT *)

Section Translator.
(** The Translation Client: how the request issued as call number [n]
    settles. *)
Variable chatCompletion : nat → ChatRequest → settled Response.

(** [openai.createChatCompletion(request)]: the request is issued at once;
    the promise is represented by its settlement. *)
Definition openai_createChatCompletion (request : ChatRequest)
    : M (settled Response) := λ s,
  (Normal (chatCompletion (length (requests s)) request),
   {| files := files s; console := console s;
      requests := requests s ++ [request] |}).

(** [x || ''] for a string or undefined [x]. *)
Definition or_empty (x : option string) : string :=
  match x with
  | Some (String c r) => String c r
  | _ => ""
  end.

Definition translateSegmentsWithGPT (order : list nat)
    (segments : list (gmap string value))
    (fromLang toLang model : string) : M (list (gmap string value)) :=
  promises ← Array_map (λ seg _,
    let originalText := get seg "text" in
    openai_createChatCompletion {|
      model := model;
      messages := [
        {| role := "system";
           content := VStr ("Você é um tradutor que converte textos do idioma "
             +:+ fromLang +:+ " para o " +:+ toLang +:+ ". " +:+ LF +:+
             "Responda somente com a tradução, sem comentários adicionais.") |};
        {| role := "user"; content := originalText |} ] |}) segments;
  responses ← lift (await_Promise_all promises order);
  Array_map (λ seg i,
    match responses !! i with
    | None => throw (TypeError "Cannot read properties of undefined (reading 'data')")
    | Some response =>
        match choices (data response) with
        | [] => throw (TypeError "Cannot read properties of undefined (reading 'message')")
        | choice :: _ =>
            let translatedText :=
              or_empty (m ← message choice; c ← message_content m; Some (trim c)) in
            mret (<["text" := VStr translatedText]> seg)
        end
    end) segments.
End Translator.

(** ** The collaborators and main *)

(** What lies outside [src/index.js]: the path functions of the platform,
    the answers given at the two prompts, and how each external operation
    settles. *)
Record World := {
  dirname : string;
  path_join : string → string → string;
  path_basename : string → string → string;
  path_extname : string → string;
  toLowerCase : string → string;
  prompt_fromLang : string;
  prompt_toLang : string;
  ensureDir_result : string → settled unit;
  readdir_result : string → settled (list string);
  ffmpeg_extract : string → string → settled unit;
  createTranscription : string → string → string → settled (list (gmap string value));
  chatCompletion_result : nat → ChatRequest → settled Response;
  settle_order : string → list nat;
  writeFile_result : string → string → settled unit;
  ffmpeg_burn : string → string → string → settled unit;
  remove_result : string → settled unit
}.

Section Main.
Context {RT : Runtime}.
Variable W : World.

Definition set_file (p : string) (f : file) : M unit := λ s,
  (Normal (), {| files := <[p := f]> (files s); console := console s;
                 requests := requests s |}).

Definition unset_file (p : string) : M unit := λ s,
  (Normal (), {| files := delete p (files s); console := console s;
                 requests := requests s |}).

Definition fs_ensureDir (dir : string) : M unit :=
  await (ensureDir_result W dir).

Definition fs_readdir (dir : string) : M (list string) :=
  await (readdir_result W dir).

Definition fs_writeFile (p text : string) : M unit :=
  _ ← await (writeFile_result W p text);
  set_file p (TextFile text).

Definition fs_remove (p : string) : M unit :=
  _ ← await (remove_result W p);
  unset_file p.

(** The promise resolves with [audioPath] on the 'end' event, after the
    tool has written the file, and rejects on the 'error' event. *)
Definition extractAudio (videoPath : string) : M string :=
  let baseName := path_basename W videoPath (path_extname W videoPath) in
  let audioPath := path_join W (dirname W) (baseName +:+ ".mp3") in
  _ ← await (ffmpeg_extract W videoPath audioPath);
  _ ← set_file audioPath (AudioOf videoPath);
  mret audioPath.

Definition burnSubtitles (videoPath srtPath outputPath : string) : M string :=
  _ ← await (ffmpeg_burn W videoPath srtPath outputPath);
  _ ← set_file outputPath (VideoWith videoPath srtPath);
  mret outputPath.

Definition validExtensions : gset string :=
  {[ ".mp4"; ".mov"; ".avi"; ".mkv" ]}.

(** The body of the loop over [videoFiles]. *)
Definition process_video (VIDEOS_DIR SUBTITLES_DIR OUTPUT_DIR videoFile : string)
    : M unit :=
  _ ← console_log (LF +:+ "[PROCESSANDO]: " +:+ videoFile);
  let videoPath := path_join W VIDEOS_DIR videoFile in
  let baseName := path_basename W videoFile (path_extname W videoFile) in
  audioPath ← extractAudio videoPath;
  _ ← console_log "  - Transcrevendo com Whisper (verbose_json)...";
  segments ← await (createTranscription W audioPath "whisper-1" (prompt_fromLang W));
  _ ← console_log "  - Traduzindo cada segmento para o idioma destino via GPT...";
  translatedSegments ← translateSegmentsWithGPT (chatCompletion_result W)
    (settle_order W videoFile) segments (prompt_fromLang W) (prompt_toLang W) "gpt-4";
  let srtContent := buildSrtFromSegments translatedSegments in
  let srtFilename := baseName +:+ " with subtitles.srt" in
  let srtPath := path_join W SUBTITLES_DIR srtFilename in
  _ ← fs_writeFile srtPath srtContent;
  _ ← console_log ("  - Arquivo SRT criado em: " +:+ srtPath);
  let outputFilename := baseName +:+ " with subtitles.mp4" in
  let outputVideoPath := path_join W OUTPUT_DIR outputFilename in
  _ ← console_log "  - Embutindo legenda no vídeo...";
  _ ← burnSubtitles videoPath srtPath outputVideoPath;
  _ ← console_log ("  ✔ Vídeo final legendado: " +:+ outputVideoPath);
  fs_remove audioPath.

Definition main : M unit :=
  try_catch
    (let VIDEOS_DIR := path_join W (dirname W) "videos" in
     let SUBTITLES_DIR := path_join W (dirname W) "subtitles" in
     let OUTPUT_DIR := path_join W (dirname W) "with-subtitles" in
     _ ← fs_ensureDir SUBTITLES_DIR;
     _ ← fs_ensureDir OUTPUT_DIR;
     files ← fs_readdir VIDEOS_DIR;
     let videoFiles :=
       filter (λ f, toLowerCase W (path_extname W f) ∈ validExtensions) files in
     if (length videoFiles =? 0)%nat then
       console_log "Nenhum arquivo de vídeo encontrado em ./videos"
     else
       _ ← for_of videoFiles (process_video VIDEOS_DIR SUBTITLES_DIR OUTPUT_DIR);
       console_log (LF +:+ "Processo concluído com sucesso!"))
    (λ err, console_error "Erro geral:" err).
End Main.

(** ** The format as the specification words it *)

(** [n] copies of the character 0. *)
Fixpoint zeros (n : nat) : string :=
  match n with
  | O => ""
  | S n' => String "0"%char (zeros n')
  end.

(** A numeral zero-padded to a width; a longer numeral keeps its width. *)
Definition zero_pad (width : nat) (numeral : string) : string :=
  zeros (width - String.length numeral) +:+ numeral.

(** The mathematical [q mod d], with the sign of the divisor. *)
Definition Qmod (q d : Q) : Q := (q - d * inject_Z (Qfloor (q / d)))%Q.

Definition HH (seconds : Q) : Z := Qfloor (seconds / 3600).
Definition MM (seconds : Q) : Z := Qfloor (Qmod seconds 3600 / 60).
Definition SS (seconds : Q) : Z := Qfloor (Qmod seconds 60).
(** round((seconds - floor(seconds)) * 1000), a tie rounding up. *)
Definition mmm (seconds : Q) : Z :=
  Qfloor ((seconds - inject_Z (Qfloor seconds)) * 1000 + (1 # 2)).

(** A cue block: the given lines, each ended by a line feed. *)
Definition lines (ls : list string) : string :=
  foldr (λ l rest, l +:+ LF +:+ rest) "" ls.

(** A document: the blocks one after the other. *)
Definition concat_blocks (blocks : list string) : string :=
  foldr String.append "" blocks.

Section CueBlock.
Context {RT : Runtime}.

Definition cue_block (i : nat) (seg : gmap string value) : string :=
  lines [ pretty (Z.of_nat i + 1);
          secondsToSrtTime (ToNumber (get seg "start")) +:+ " --> " +:+
            secondsToSrtTime (ToNumber (get seg "end"));
          ToString (get seg "text");
          "" ].
End CueBlock.


(** The translated segment built from a segment and a response's text. *)
Definition with_text (seg : gmap string value) (translatedText : string)
    : gmap string value :=
  <["text" := VStr translatedText]> seg.

(** The request for one segment: the instruction to translate from the
    source to the target language, and the segment's text. *)
Definition translation_request (fromLang toLang model : string)
    (seg : gmap string value) : ChatRequest :=
  {| model := model;
     messages := [
       {| role := "system";
          content := VStr ("Você é um tradutor que converte textos do idioma "
            +:+ fromLang +:+ " para o " +:+ toLang +:+ ". " +:+ LF +:+
            "Responda somente com a tradução, sem comentários adicionais.") |};
       {| role := "user"; content := get seg "text" |} ] |}.

(** The text a response carries: the trimmed content of its first choice,
    the empty string when there is none. *)
Definition response_text (response : Response) : string :=
  or_empty (choice ← head (choices (data response));
            m ← message choice; c ← message_content m; Some (trim c)).

(** A response with at least one choice. *)
Definition well_formed (response : Response) : Prop :=
  choices (data response) ≠ [].

(** The buffer of [Promise.all] while the promises of [order] are
    outstanding: the slots of the others hold their values. *)
Definition buffer {A : Type} (vs : list A) (order : list nat) : list (option A) :=
  imap (λ i v, if decide (i ∈ order) then None else Some v) vs.

(** The state after further requests have been issued. *)
Definition issued (s : State) (new : list ChatRequest) : State :=
  {| files := files s; console := console s; requests := requests s ++ new |}.

(** A runtime for evaluating examples: every finite number printed there is
    an integer, for which it gives the decimal numeral. *)
Definition exampleRuntime : Runtime := {|
  NumberToString := λ q, pretty (Qfloor q);
  NumberToString_integer := λ q z _ Hq,
    eq_trans (f_equal (pretty (A:=Z)) (Qfloor_comp q (inject_Z z) Hq))
             (f_equal (pretty (A:=Z)) (Qfloor_Z z));
  StringToNumber := λ _, NaN;
  RefToNumber := λ _, NaN;
  RefToString := λ _, "[object Object]"
|}.

(** The scenario of the specification: two German segments and a client
    that answers them with "Hello" and "How are you?". *)
Definition hallo : gmap string value :=
  {[ "id" := VNum (Fin 7); "start" := VNum (Fin 0);
     "end" := VNum (Fin (12 # 10)); "text" := VStr "Hallo" ]}.
Definition wie_gehts : gmap string value :=
  {[ "id" := VNum (Fin 9); "start" := VNum (Fin (12 # 10));
     "end" := VNum (Fin (35 # 10)); "text" := VStr "Wie geht's?" ]}.

Definition reply (text : string) : Response :=
  {| data := {| choices :=
       [ {| message := Some {| message_content := Some text |} |} ] |} |}.

Definition mock_client (n : nat) (request : ChatRequest) : settled Response :=
  match n with
  | 0%nat => Fulfilled (reply " Hello ")
  | _ => Fulfilled (reply "How are you?")
  end.

(** A client whose second request times out. *)
Definition failing_client (n : nat) (request : ChatRequest) : settled Response :=
  match n with
  | 1%nat => Rejected (RequestError "timeout")
  | _ => Fulfilled (reply "Hello")
  end.

Definition initial_state : State :=
  {| files := ∅; console := []; requests := [] |}.

(** The mock run, the second response arriving first. *)
Definition mock_run : completion (list (gmap string value)) * State :=
  translateSegmentsWithGPT mock_client [1; 0]%nat [hallo; wie_gehts]
    "de" "en" "gpt-4" initial_state.

Definition mock_translated : list (gmap string value) :=
  match mock_run.1 with
  | Normal translated => translated
  | _ => []
  end.

(** A batch of two videos on a small platform: paths are joined with a
    slash, the extension starts at the last dot.  The transcription of the
    first video fails when [first_ok] is false; every other operation
    succeeds. *)
Fixpoint before_first (c : ascii) (s : string) : string :=
  match s with
  | String c' r => if Ascii.eqb c c' then "" else String c' (before_first c r)
  | EmptyString => ""
  end.

Definition last_segment (p : string) : string :=
  String.rev (before_first "/" (String.rev p)).

Fixpoint has_char (c : ascii) (s : string) : bool :=
  match s with
  | String c' r => Ascii.eqb c c' || has_char c r
  | EmptyString => false
  end.

Definition example_extname (p : string) : string :=
  let b := last_segment p in
  if has_char "." b then "." +:+ String.rev (before_first "." (String.rev b))
  else "".

Definition example_basename (p ext : string) : string :=
  let b := last_segment p in
  if String.prefix (String.rev ext) (String.rev b)
  then String.substring 0 (String.length b - String.length ext) b
  else b.

Definition lower_ascii (c : ascii) : ascii :=
  let n := nat_of_ascii c in
  if ((65 <=? n) && (n <=? 90))%nat then ascii_of_nat (n + 32) else c.

Fixpoint example_toLowerCase (s : string) : string :=
  match s with
  | String c r => String (lower_ascii c) (example_toLowerCase r)
  | EmptyString => ""
  end.

Definition batch_world (first_ok : bool) : World := {|
  dirname := "/app";
  path_join := λ a b, a +:+ "/" +:+ b;
  path_basename := example_basename;
  path_extname := example_extname;
  toLowerCase := example_toLowerCase;
  prompt_fromLang := "de";
  prompt_toLang := "en";
  ensureDir_result := λ _, Fulfilled ();
  readdir_result := λ _, Fulfilled ["a.mp4"; "notes.txt"; "b.MP4"];
  ffmpeg_extract := λ _ _, Fulfilled ();
  createTranscription := λ audioPath _ _,
    if bool_decide (audioPath = "/app/a.mp3") && negb first_ok
    then Rejected (RequestError "transcription failed")
    else Fulfilled [hallo; wie_gehts];
  chatCompletion_result := λ n _,
    if Nat.even n then Fulfilled (reply "Hello")
    else Fulfilled (reply "How are you?");
  settle_order := λ _, [1; 0]%nat;
  writeFile_result := λ _ _, Fulfilled ();
  ffmpeg_burn := λ _ _ _, Fulfilled ();
  remove_result := λ _, Fulfilled ()
|}.


(** ** Further examples and auxiliary definitions *)

(** A client for three requests: the first is answered, the second times
    out, the third is refused. *)
Definition two_failures_client (n : nat) (request : ChatRequest)
    : settled Response :=
  match n with
  | 0%nat => Fulfilled (reply "Hello")
  | 1%nat => Rejected (RequestError "timeout")
  | _ => Rejected (RequestError "quota")
  end.





(** A world like [batch_world true] with a chosen directory listing and a
    chosen outcome of the audio extraction. *)
Definition custom_world (listing : settled (list string))
    (extraction : settled unit) : World := {|
  dirname := "/app";
  path_join := λ a b, a +:+ "/" +:+ b;
  path_basename := example_basename;
  path_extname := example_extname;
  toLowerCase := example_toLowerCase;
  prompt_fromLang := "de";
  prompt_toLang := "en";
  ensureDir_result := λ _, Fulfilled ();
  readdir_result := λ _, listing;
  ffmpeg_extract := λ _ _, extraction;
  createTranscription := λ _ _ _, Fulfilled [hallo; wie_gehts];
  chatCompletion_result := λ n _,
    if Nat.even n then Fulfilled (reply "Hello")
    else Fulfilled (reply "How are you?");
  settle_order := λ _, [1; 0]%nat;
  writeFile_result := λ _ _, Fulfilled ();
  ffmpeg_burn := λ _ _ _, Fulfilled ();
  remove_result := λ _, Fulfilled ()
|}.


(** The state of the buffer of [Promise.all] while exactly the promises of
    [pend] are outstanding: their slots are empty, every other slot holds the
    value its promise was fulfilled with. *)
Definition outstanding {A : Type} (promises : list (settled A))
    (values : list (option A)) (pend : list nat) : Prop :=
  NoDup pend
  ∧ length values = length promises
  ∧ (∀ i, i ∈ pend → values !! i = Some None)
  ∧ (∀ i, i ∉ pend → (i < length values)%nat →
       ∃ v, values !! i = Some (Some v) ∧ promises !! i = Some (Fulfilled v)).

(** * Properties *)

(** ** Padding and numerals *)

Lemma fill_cyclic_zeros (n : nat) (cur : string) :
  (cur = "" ∨ cur = "0") → fill_cyclic n cur "0" = zeros n.
Proof.
  revert cur. induction n as [|n IH]; intros cur Hcur; [done|].
  destruct Hcur as [-> | ->]; simpl; f_equal; apply IH; auto.
Qed.

Lemma padStart_zero_pad (s : string) (w : nat) :
  padStart s w "0" = zero_pad w s.
Proof.
  unfold padStart, zero_pad.
  destruct (Nat.leb_spec w (String.length s)) as [Hle | Hlt].
  - by replace (w - String.length s)%nat with 0%nat by lia.
  - by rewrite fill_cyclic_zeros by auto.
Qed.




(** ** Floor and remainder on rationals *)

Lemma Qfloor_bounds (x : Q) :
  (inject_Z (Qfloor x) <= x)%Q ∧ (x < inject_Z (Qfloor x) + 1)%Q.
Proof.
  split; [apply Qfloor_le|].
  pose proof (Qlt_floor x) as H. by rewrite inject_Z_plus in H.
Qed.

Lemma Qfloor_range (x : Q) (n : Z) :
  (0 <= x)%Q → (x < inject_Z n)%Q → 0 ≤ Qfloor x < n.
Proof.
  intros H0 Hn. split.
  - change 0 with (Qfloor 0). by apply Qfloor_resp_le.
  - rewrite Zlt_Qlt. eapply Qle_lt_trans; [apply Qfloor_le | done].
Qed.

Lemma Qmod_range (q d : Q) :
  (0 < d)%Q → (0 <= Qmod q d)%Q ∧ (Qmod q d < d)%Q.
Proof.
  intros Hd. unfold Qmod.
  destruct (Qfloor_bounds (q / d)) as [H1 H2].
  set (k := inject_Z (Qfloor (q / d))) in *.
  assert (Hq : (q == d * (q / d))%Q) by (field; lra).
  split.
  - assert (d * k <= d * (q / d))%Q by (apply Qmult_le_l; auto). lra.
  - assert (d * (q / d) < d * (k + 1))%Q by (apply Qmult_lt_l; auto). lra.
Qed.

(** On a non-negative dividend, [%] is the mathematical modulo. *)
Lemma num_rem_nonneg (q d : Q) :
  (0 <= q)%Q → (0 < d)%Q → num_rem (Fin q) d = Fin (Qmod q d).
Proof.
  intros Hq Hd. unfold num_rem, Qmod, Qtrunc.
  assert (H : Qle_bool 0 (q / d) = true).
  { apply Qle_bool_iff, Qle_shift_div_l; lra. }
  by rewrite H.
Qed.

Lemma HH_nonneg (q : Q) : (0 <= q)%Q → 0 ≤ HH q.
Proof.
  intros Hq. unfold HH. change 0 with (Qfloor 0).
  apply Qfloor_resp_le, Qle_shift_div_l; lra.
Qed.

Lemma MM_range (q : Q) : 0 ≤ MM q < 60.
Proof.
  unfold MM. destruct (Qmod_range q 3600) as [H0 H1]; [lra|].
  apply Qfloor_range.
  - apply Qle_shift_div_l; lra.
  - apply Qlt_shift_div_r; [lra|]. change (inject_Z 60) with (60 # 1). lra.
Qed.

Lemma SS_range (q : Q) : 0 ≤ SS q < 60.
Proof.
  unfold SS. destruct (Qmod_range q 60) as [H0 H1]; [lra|].
  by apply Qfloor_range.
Qed.


Section FormatterFacts.
Context {RT : Runtime}.

Lemma String_integer (z : Z) :
  Z.abs z < 10 ^ 21 → String_ (Fin (inject_Z z)) = pretty z.
Proof. intros Hz. simpl. by apply NumberToString_integer. Qed.

(** The four fields of a non-negative time, before any numeral is
    interpreted. *)
Lemma secondsToSrtTime_fields (q : Q) :
  (0 <= q)%Q →
  secondsToSrtTime (Fin q) =
    zero_pad 2 (String_ (Fin (inject_Z (HH q)))) +:+ ":" +:+
    zero_pad 2 (String_ (Fin (inject_Z (MM q)))) +:+ ":" +:+
    zero_pad 2 (String_ (Fin (inject_Z (SS q)))) +:+ "," +:+
    zero_pad 3 (String_ (Fin (inject_Z (mmm q)))).
Proof.
  intros Hq. unfold secondsToSrtTime.
  rewrite !num_rem_nonneg by lra.
  by rewrite !padStart_zero_pad.
Qed.

Lemma secondsToSrtTime_NaN : secondsToSrtTime NaN = "NaN:NaN:NaN,NaN".
Proof. reflexivity. Qed.
End FormatterFacts.

(** ** secondsToSrtTime *)

Lemma secondsToSrtTime_zero {RT : Runtime} :
  secondsToSrtTime (Fin 0) = "00:00:00,000".
Proof.
  rewrite secondsToSrtTime_fields by lra.
  rewrite !String_integer by (vm_compute; reflexivity).
  vm_compute. reflexivity.
Qed.



(** C3.  What the code does where the claim asks for a carry: when the
    milliseconds round to 1000, the seconds field stays floor(seconds mod 60)
    and the milliseconds field is the four characters 1000. *)
Theorem secondsToSrtTime_no_carry {RT : Runtime} (seconds : Q) :
  (0 <= seconds)%Q →
  HH seconds < 10 ^ 21 →
  mmm seconds = 1000 →
  secondsToSrtTime (Fin seconds) =
    zero_pad 2 (pretty (HH seconds)) +:+ ":" +:+
    zero_pad 2 (pretty (MM seconds)) +:+ ":" +:+
    zero_pad 2 (pretty (SS seconds)) +:+ "," +:+ "1000".
Proof.
  intros Hq Hh Hms.
  pose proof (HH_nonneg seconds Hq).
  pose proof (MM_range seconds).
  pose proof (SS_range seconds).
  rewrite secondsToSrtTime_fields by done.
  rewrite !String_integer by lia.
  by rewrite Hms.
Qed.

Lemma secondsToSrtTime_no_carry_witness :
  (0 <= 36619996 # 10000)%Q ∧ HH (36619996 # 10000) < 10 ^ 21 ∧
  mmm (36619996 # 10000) = 1000 ∧
  @secondsToSrtTime exampleRuntime (Fin (36619996 # 10000)) = "01:01:01,1000".
Proof.
  assert (H0 : (0 <= 36619996 # 10000)%Q) by (vm_compute; discriminate).
  assert (H1 : HH (36619996 # 10000) < 10 ^ 21) by (vm_compute; reflexivity).
  assert (H2 : mmm (36619996 # 10000) = 1000) by (vm_compute; reflexivity).
  split; [exact H0 | split; [exact H1 | split; [exact H2 |]]].
  rewrite (@secondsToSrtTime_no_carry exampleRuntime _ H0 H1 H2).
  vm_compute. reflexivity.
Defined.

(** The value the specification names, taken as an exact rational, has the
    same outcome. *)
Example secondsToSrtTime_3661_9995 {RT : Runtime} :
  secondsToSrtTime (Fin (36619995 # 10000)) = "01:01:01,1000".
Proof.
  rewrite secondsToSrtTime_fields by (vm_compute; discriminate).
  rewrite !String_integer by (vm_compute; reflexivity).
  vm_compute. reflexivity.
Qed.

(** ** buildSrtFromSegments *)

Lemma string_app_cons (c : ascii) (s t : string) :
  String c s +:+ t = String c (s +:+ t).
Proof. reflexivity. Qed.

Lemma string_app_assoc (s1 s2 s3 : string) :
  (s1 +:+ s2) +:+ s3 = s1 +:+ (s2 +:+ s3).
Proof.
  induction s1 as [|c s1 IH]; [done|].
  by rewrite !string_app_cons, IH.
Qed.

Lemma string_app_nil_r (s : string) : s +:+ "" = s.
Proof.
  induction s as [|c s IH]; [done|].
  by rewrite string_app_cons, IH.
Qed.

Lemma concat_blocks_app (l1 l2 : list string) :
  concat_blocks (l1 ++ l2) = concat_blocks l1 +:+ concat_blocks l2.
Proof.
  unfold concat_blocks.
  induction l1 as [|b l1 IH]; [done|].
  cbn [app foldr]. by rewrite IH, string_app_assoc.
Qed.



Section BuilderFacts.
Context {RT : Runtime}.

(** The loop appends to the accumulator the blocks of the remaining
    segments, numbered from the current index. *)
Lemma buildSrtFromSegments_blocks (segments : list (gmap string value)) :
  buildSrtFromSegments segments = concat_blocks (imap cue_block segments).
Proof.
  unfold buildSrtFromSegments, forEach.
  match goal with |- forEach_from ?cb _ _ _ = _ => set (callback := cb) end.
  assert (Hcb : ∀ acc seg i, callback acc seg i = acc +:+ cue_block i seg).
  { intros acc seg i. unfold callback, cue_block, lines. cbn [foldr].
    rewrite !string_app_assoc. reflexivity. }
  clearbody callback.
  enough (H : ∀ i acc, forEach_from callback segments i acc =
            acc +:+ concat_blocks (imap (λ j, cue_block (i + j)) segments))
    by (rewrite H; done).
  induction segments as [|seg segments IH]; intros i acc.
  - cbn. by rewrite string_app_nil_r.
  - cbn [forEach_from]. rewrite IH, Hcb, imap_cons, string_app_assoc.
    unfold concat_blocks at 2. cbn [foldr]. fold (concat_blocks).
    rewrite Nat.add_0_r. do 2 f_equal.
    unfold concat_blocks. f_equal. apply imap_ext. intros j ? _. simpl.
    by rewrite Nat.add_succ_r.
Qed.

End BuilderFacts.

(** C5.  The document is the K cue blocks of the K segments in input order;
    the block at position i is the line i+1, the line
    formattedStart --> formattedEnd, the text line and an empty line, and
    depends on nothing else in the segment; no segment gives the empty
    string. *)
Theorem buildSrtFromSegments_cue_blocks {RT : Runtime}
    (segments : list (gmap string value)) :
  buildSrtFromSegments segments = concat_blocks (imap cue_block segments)
  ∧ length (imap cue_block segments) = length segments
  ∧ (∀ i, imap cue_block segments !! i = cue_block i <$> segments !! i)
  ∧ (∀ i seg, cue_block i seg =
       pretty (Z.of_nat i + 1) +:+ LF +:+
       (secondsToSrtTime (ToNumber (get seg "start")) +:+ " --> " +:+
        secondsToSrtTime (ToNumber (get seg "end"))) +:+ LF +:+
       ToString (get seg "text") +:+ LF +:+ LF)
  ∧ buildSrtFromSegments [] = "".
Proof.
  split; [apply buildSrtFromSegments_blocks|].
  split; [apply length_imap|].
  split; [intros i; apply list_lookup_imap|].
  split; [|done].
  intros i seg. unfold cue_block, lines. simpl.
  by rewrite !string_app_assoc.
Qed.




(** ** Promise.all *)

Local Close Scope Z_scope.
#[local] Set Warnings "-clear-no-such-hyp".

Section PromiseAll.
Context {A : Type}.
Implicit Types (vs : list A) (order : list nat).

Lemma buffer_nil vs : buffer vs [] = Some <$> vs.
Proof.
  apply list_eq. intros i. unfold buffer.
  rewrite list_lookup_imap, list_lookup_fmap.
  by destruct (vs !! i).
Qed.

Lemma omap_id_Some vs : omap id (Some <$> vs) = vs.
Proof. induction vs as [|v vs IH]; [done|]. cbn. by rewrite IH. Qed.

Lemma buffer_outstanding vs order i :
  i ∈ order → i < length vs → buffer vs order !! i = Some None.
Proof.
  intros Hin Hlt. unfold buffer. rewrite list_lookup_imap.
  destruct (lookup_lt_is_Some_2 vs i Hlt) as [v ->]. simpl.
  by rewrite decide_True.
Qed.

Lemma buffer_insert vs index order v :
  NoDup (index :: order) → vs !! index = Some v →
  <[index := Some v]> (buffer vs (index :: order)) = buffer vs order.
Proof.
  intros [Hnotin _]%NoDup_cons Hv. apply list_eq. intros j.
  unfold buffer. rewrite list_lookup_insert, length_imap, !list_lookup_imap.
  apply lookup_lt_Some in Hv as Hlt.
  destruct (decide (index = j ∧ index < length vs)) as [[-> _] | Hne].
  - rewrite Hv. simpl. by rewrite decide_False.
  - assert (index ≠ j) by tauto.
    destruct (vs !! j); simpl; [|done].
    destruct (decide (j ∈ order)).
    + by rewrite decide_True by set_solver.
    + by rewrite decide_False by set_solver.
Qed.

Lemma buffer_all_outstanding vs order :
  (∀ i, i < length vs → i ∈ order) →
  replicate (length vs) None = buffer vs order.
Proof.
  intros Hall. apply list_eq. intros i. unfold buffer.
  rewrite list_lookup_imap.
  destruct (decide (i < length vs)) as [Hlt | Hge].
  - rewrite lookup_replicate_2 by done.
    destruct (lookup_lt_is_Some_2 vs i Hlt) as [v ->]. simpl.
    by rewrite decide_True by auto.
  - rewrite (lookup_ge_None_2 vs) by lia. simpl.
    apply lookup_ge_None_2. rewrite length_replicate. lia.
Qed.

(** Every fulfilment fills the slot of its own index; the last one
    delivers the values in the order of the promises. *)
Lemma Promise_all_loop_fulfilled vs order :
  NoDup order → order ≠ [] → (∀ i, i ∈ order → i < length vs) →
  Promise_all_loop (Fulfilled <$> vs) order (buffer vs order) (length order)
  = Normal vs.
Proof.
  induction order as [|index order IH]; [done|].
  intros Hnd _ Hlt. cbn [Promise_all_loop].
  assert (Hi : index < length vs) by (apply Hlt; set_solver).
  destruct (lookup_lt_is_Some_2 vs index Hi) as [v Hv].
  rewrite list_lookup_fmap, Hv. cbn [fmap option_fmap option_map].
  rewrite buffer_outstanding by (done || set_solver).
  rewrite buffer_insert by done.
  cbn [length]. rewrite Nat.sub_1_r. cbn [Nat.pred].
  destruct order as [|j order'].
  - cbn. by rewrite buffer_nil, omap_id_Some.
  - cbn [length Nat.eqb]. apply IH; [by apply NoDup_cons in Hnd as [_ ?] | done |].
    intros i ?. apply Hlt. set_solver.
Qed.

Lemma await_Promise_all_fulfilled vs order :
  order ≡ₚ seq 0 (length vs) →
  await_Promise_all (Fulfilled <$> vs) order = Normal vs.
Proof.
  intros Hperm. destruct vs as [|v0 vs0]; [done|].
  set (vs := v0 :: vs0) in *. unfold await_Promise_all.
  change (Fulfilled <$> vs) with (Fulfilled v0 :: (Fulfilled <$> vs0)) at 1.
  cbv iota. rewrite length_fmap.
  assert (Hin : ∀ i, i ∈ order ↔ i < length vs).
  { intros i. rewrite Hperm, elem_of_seq. lia. }
  rewrite (buffer_all_outstanding vs order) by (intros; by apply Hin).
  assert (Hlen : length order = length vs).
  { by rewrite Hperm, length_seq. }
  rewrite <- Hlen. apply Promise_all_loop_fulfilled.
  - rewrite Hperm. apply NoDup_seq.
  - intros ->. done.
  - intros i. apply Hin.
Qed.

(** The first rejection rejects the whole at once. *)
Lemma Promise_all_loop_rejected (promises : list (settled A)) order values k e :
  NoDup order → k ∈ order →
  promises !! k = Some (Rejected e) →
  (∀ i, i ∈ order → i ≠ k → ∃ v, promises !! i = Some (Fulfilled v)) →
  (∀ i, i ∈ order → values !! i = Some None) →
  Promise_all_loop promises order values (length order) = Throw e.
Proof.
  intros Hnd Hk He. revert values Hnd Hk.
  induction order as [|index order IH]; intros values Hnd Hk Hful Hval.
  { set_solver. }
  cbn [Promise_all_loop].
  destruct (decide (index = k)) as [-> | Hne].
  { by rewrite He. }
  destruct (Hful index) as [v ->]; [set_solver | done |].
  rewrite Hval by set_solver.
  apply NoDup_cons in Hnd as [Hnotin Hnd].
  assert (Hk' : k ∈ order) by set_solver.
  cbn [length]. rewrite Nat.sub_1_r. cbn [Nat.pred].
  destruct order as [|j order']; [set_solver|].
  cbn [length Nat.eqb]. apply IH; [done | done | |].
  - intros i ? ?. apply Hful; [set_solver | done].
  - intros i Hi. rewrite list_lookup_insert_ne by set_solver.
    apply Hval. set_solver.
Qed.

Lemma await_Promise_all_rejected (promises : list (settled A)) order k e :
  order ≡ₚ seq 0 (length promises) →
  promises !! k = Some (Rejected e) →
  (∀ i, i ≠ k → i < length promises → ∃ v, promises !! i = Some (Fulfilled v)) →
  await_Promise_all promises order = Throw e.
Proof.
  intros Hperm He Hful.
  assert (Hin : ∀ i, i ∈ order ↔ i < length promises).
  { intros i. rewrite Hperm, elem_of_seq. lia. }
  apply lookup_lt_Some in He as Hk.
  unfold await_Promise_all. destruct promises as [|p0 ps0]; [simpl in Hk; lia|].
  set (promises := p0 :: ps0) in *.
  assert (Hlen : length order = length promises).
  { by rewrite Hperm, length_seq. }
  rewrite <- Hlen at 2. apply (Promise_all_loop_rejected _ _ _ k e).
  - rewrite Hperm. apply NoDup_seq.
  - by apply Hin.
  - done.
  - intros i Hi Hne. apply Hful; [done | by apply Hin].
  - intros i Hi. apply lookup_replicate_2. by apply Hin.
Qed.
End PromiseAll.

(** ** The monad *)

Lemma bind_Normal {A B : Type} (m : M A) (f : A → M B) (s s' : State) (a : A) :
  m s = (Normal a, s') → (m ≫= f) s = f a s'.
Proof. intros H. unfold mbind, M_bind. by rewrite H. Qed.

Lemma bind_Throw {A B : Type} (m : M A) (f : A → M B) (s s' : State) (e : error) :
  m s = (Throw e, s') → (m ≫= f) s = (Throw e, s').
Proof. intros H. unfold mbind, M_bind. by rewrite H. Qed.

Lemma bind_Normal_inv {A B : Type} (m : M A) (f : A → M B) (s s' : State) (b : B) :
  (m ≫= f) s = (Normal b, s') →
  ∃ a s1, m s = (Normal a, s1) ∧ f a s1 = (Normal b, s').
Proof.
  unfold mbind, M_bind. destruct (m s) as [[a | e |] s1]; intros H;
    [eauto | discriminate | discriminate].
Qed.

Lemma issued_nil (s : State) : issued s [] = s.
Proof. destruct s. unfold issued. simpl. by rewrite app_nil_r. Qed.

Lemma issued_issued (s : State) (l1 l2 : list ChatRequest) :
  issued (issued s l1) l2 = issued s (l1 ++ l2).
Proof. unfold issued. simpl. by rewrite app_assoc. Qed.

(** A [map] whose callback returns normally relates every element to its
    image, in order. *)
Lemma map_from_Normal_inv {A B : Type} (R : A → B → Prop)
    (callback : A → nat → M B) (array : list A) :
  (∀ x i s b s', callback x i s = (Normal b, s') → R x b) →
  ∀ i s bs s', map_from callback array i s = (Normal bs, s') → Forall2 R array bs.
Proof.
  intros Hcb. induction array as [|x array IH]; intros i s bs s' Hrun.
  - cbn in Hrun. injection Hrun as <- _. constructor.
  - cbn [map_from] in Hrun.
    apply bind_Normal_inv in Hrun as (b & s1 & Hb & Hrun).
    apply bind_Normal_inv in Hrun as (bs' & s2 & Hbs & Hrun).
    cbn in Hrun. injection Hrun as <- _.
    constructor; eauto.
Qed.

(** ** translateSegmentsWithGPT *)

Section TranslatorFacts.
Variable chatCompletion : nat → ChatRequest → settled Response.
Variables fromLang toLang model : string.

#[local] Abbreviation request := (translation_request fromLang toLang model).

(** The first [map] issues one request per segment, in order, whatever the
    client answers. *)
Lemma requests_issued (segments : list (gmap string value)) (i : nat) (s : State) :
  map_from (λ seg _, openai_createChatCompletion chatCompletion (request seg))
    segments i s =
  (Normal (imap (λ j seg, chatCompletion (length (requests s) + j) (request seg))
             segments),
   issued s (request <$> segments)).
Proof.
  revert i s. induction segments as [|seg segments IH]; intros i s.
  - cbn. by rewrite issued_nil.
  - cbn [map_from].
    rewrite (bind_Normal _ _ s (issued s [request seg])
               (chatCompletion (length (requests s)) (request seg)))
      by reflexivity.
    erewrite bind_Normal by apply IH.
    rewrite issued_issued. cbn [fmap list_fmap app].
    unfold mret, M_ret. rewrite imap_cons, Nat.add_0_r. do 3 f_equal.
    apply imap_ext. intros j x _. cbn. rewrite length_app. cbn.
    f_equal. lia.
Qed.

(** The second [map] pairs every segment with the response of its own
    index. *)
Lemma segments_rebuilt (responses : list Response)
    (segments : list (gmap string value)) (s : State) :
  length responses = length segments →
  Forall well_formed responses →
  ∀ i (pre : list Response), length pre = i →
  map_from (λ seg i,
    match (pre ++ responses)%list !! i with
    | None => throw (TypeError "Cannot read properties of undefined (reading 'data')")
    | Some response =>
        match choices (data response) with
        | [] => throw (TypeError "Cannot read properties of undefined (reading 'message')")
        | choice :: _ =>
            mret (<["text" := VStr (or_empty
                    (m ← message choice; c ← message_content m; Some (trim c)))]> seg)
        end
    end) segments i s =
  (Normal (zip_with with_text segments (response_text <$> responses)), s).
Proof.
  revert responses. induction segments as [|seg segments IH];
    intros responses Hlen Hwf i pre Hpre; [done|].
  destruct responses as [|r responses]; [done|].
  apply Forall_cons in Hwf as [Hr Hwf].
  cbn [map_from].
  rewrite lookup_app_r, Hpre, Nat.sub_diag by lia. cbn [lookup list_lookup].
  unfold well_formed in Hr.
  destruct (choices (data r)) as [|choice rest] eqn:Hch; [done|].
  erewrite bind_Normal by reflexivity.
  erewrite bind_Normal.
  2:{ specialize (IH responses ltac:(simpl in Hlen; lia) Hwf (S i) (pre ++ [r])%list).
      rewrite <- app_assoc in IH. apply IH. rewrite length_app. simpl. lia. }
  cbn. unfold with_text, response_text. by rewrite Hch.
Qed.
End TranslatorFacts.

Section TranslatorTheorems.
Variable chatCompletion : nat → ChatRequest → settled Response.
Variables fromLang toLang model : string.

#[local] Abbreviation request := (translation_request fromLang toLang model).
#[local] Abbreviation translate :=
  (translateSegmentsWithGPT chatCompletion).

(** With every request answered by a well-formed response, the result is
    the segments paired with the responses index by index, for every order
    of settlement. *)
Lemma translate_fulfilled (order : list nat) (segments : list (gmap string value))
    (responses : list Response) (s : State) :
  length responses = length segments →
  order ≡ₚ seq 0 (length segments) →
  (∀ i seg r, segments !! i = Some seg → responses !! i = Some r →
     chatCompletion (length (requests s) + i) (request seg) = Fulfilled r) →
  Forall well_formed responses →
  translate order segments fromLang toLang model s =
    (Normal (zip_with with_text segments (response_text <$> responses)),
     issued s (request <$> segments)).
Proof.
  intros Hlen Hperm Hchat Hwf.
  unfold translateSegmentsWithGPT, Array_map.
  erewrite bind_Normal by apply requests_issued.
  assert (Hpromises :
    imap (λ j seg, chatCompletion (length (requests s) + j) (request seg)) segments
    = Fulfilled <$> responses).
  { apply list_eq. intros i. rewrite list_lookup_imap, list_lookup_fmap.
    destruct (segments !! i) as [seg|] eqn:Hseg; simpl.
    - destruct (lookup_lt_is_Some_2 responses i) as [r Hr].
      { apply lookup_lt_Some in Hseg. lia. }
      rewrite Hr. simpl. f_equal. eauto.
    - apply lookup_ge_None_1 in Hseg.
      rewrite (lookup_ge_None_2 responses) by lia. done. }
  rewrite Hpromises.
  rewrite (bind_Normal _ _ _ (issued s (request <$> segments)) responses).
  2:{ unfold lift. by rewrite await_Promise_all_fulfilled by (by rewrite Hlen). }
  apply (segments_rebuilt responses segments _ Hlen Hwf 0%nat []). done.
Qed.

(** Whenever the translator returns, every output is its input segment
    with the text replaced. *)
Lemma translate_Normal_inv (order : list nat) (segments : list (gmap string value))
    (s s' : State) (translated : list (gmap string value)) :
  translate order segments fromLang toLang model s = (Normal translated, s') →
  Forall2 (λ seg out, ∃ t, out = with_text seg t) segments translated.
Proof.
  unfold translateSegmentsWithGPT, Array_map. intros Hrun.
  apply bind_Normal_inv in Hrun as (promises & s1 & _ & Hrun).
  apply bind_Normal_inv in Hrun as (responses & s2 & _ & Hrun).
  eapply map_from_Normal_inv; [|exact Hrun].
  intros seg i s0 out s0' Hcb. cbv beta in Hcb.
  destruct (responses !! i) as [r|]; [|discriminate].
  destruct (choices (data r)) as [|choice rest]; [discriminate|].
  injection Hcb as <- _. eauto.
Qed.
End TranslatorTheorems.

(** C1.  For N segments whose requests are each answered by a well-formed
    response, and for every order in which the N requests settle, the
    translator issues the N requests and returns N translated segments, the
    i-th built from the i-th segment and the i-th response; for no segment
    it returns the empty sequence without a request, whatever the order. *)
Theorem translateSegmentsWithGPT_order_preserving
    (chatCompletion : nat → ChatRequest → settled Response)
    (order : list nat) (segments : list (gmap string value))
    (responses : list Response) (fromLang toLang model : string) (s : State) :
  length responses = length segments →
  order ≡ₚ seq 0 (length segments) →
  (∀ i seg r, segments !! i = Some seg → responses !! i = Some r →
     chatCompletion (length (requests s) + i)
       (translation_request fromLang toLang model seg) = Fulfilled r) →
  Forall well_formed responses →
  ∃ translated,
    translateSegmentsWithGPT chatCompletion order segments fromLang toLang model s
      = (Normal translated,
         issued s (translation_request fromLang toLang model <$> segments))
    ∧ length translated = length segments
    ∧ (∀ i seg r, segments !! i = Some seg → responses !! i = Some r →
         translated !! i = Some (with_text seg (response_text r)))
    ∧ (∀ order' s',
         translateSegmentsWithGPT chatCompletion order' [] fromLang toLang model s'
           = (Normal [], s')).
Proof.
  intros Hlen Hperm Hchat Hwf.
  eexists. split; [by apply translate_fulfilled|].
  split; [|split].
  - rewrite length_zip_with, length_fmap. lia.
  - intros i seg r Hseg Hr.
    rewrite lookup_zip_with, Hseg, list_lookup_fmap, Hr. done.
  - intros order' s'. reflexivity.
Qed.

Lemma translateSegmentsWithGPT_order_preserving_witness :
  ∃ translated,
    mock_run.1 = Normal translated
    ∧ length translated = 2
    ∧ translated !! 0 = Some (with_text hallo "Hello")
    ∧ translated !! 1 = Some (with_text wie_gehts "How are you?").
Proof.
  destruct (translateSegmentsWithGPT_order_preserving mock_client [1; 0]
    [hallo; wie_gehts] [reply " Hello "; reply "How are you?"]
    "de" "en" "gpt-4" initial_state) as (translated & Hrun & Hlen & Hi & _).
  - reflexivity.
  - apply Permutation_swap.
  - intros [|[|i]] seg r Hseg Hr; simplify_eq/=; reflexivity.
  - repeat constructor; discriminate.
  - exists translated. split; [unfold mock_run; by rewrite Hrun|].
    split; [exact Hlen|]. split.
    + rewrite (Hi 0 hallo (reply " Hello ") eq_refl eq_refl).
      vm_compute. reflexivity.
    + rewrite (Hi 1 wie_gehts (reply "How are you?") eq_refl eq_refl).
      vm_compute. reflexivity.
Defined.

(** C2, as stated, fails: with two segments and a client whose second
    request times out, the translator returns no sequence at all; the run
    ends with the timeout thrown, after both requests were issued. *)
Lemma translateSegmentsWithGPT_no_fallback :
  translateSegmentsWithGPT failing_client [0; 1] [hallo; wie_gehts]
    "de" "en" "gpt-4" initial_state
  = (Throw (RequestError "timeout"),
     issued initial_state
       (translation_request "de" "en" "gpt-4" <$> [hallo; wie_gehts])).
Proof. vm_compute. reflexivity. Qed.

(** C2, amended.  When exactly one of the N requests fails and the others
    succeed, then for every order of settlement all N requests are issued
    and the translator as a whole fails with the error of the failed
    request: it returns no sequence and puts no fallback value in any
    slot. *)
Theorem translateSegmentsWithGPT_rejects
    (chatCompletion : nat → ChatRequest → settled Response)
    (order : list nat) (segments : list (gmap string value))
    (fromLang toLang model : string) (s : State)
    (k : nat) (failed : gmap string value) (e : error) :
  order ≡ₚ seq 0 (length segments) →
  segments !! k = Some failed →
  chatCompletion (length (requests s) + k)
    (translation_request fromLang toLang model failed) = Rejected e →
  (∀ i seg, i ≠ k → segments !! i = Some seg →
     ∃ r, chatCompletion (length (requests s) + i)
            (translation_request fromLang toLang model seg) = Fulfilled r) →
  translateSegmentsWithGPT chatCompletion order segments fromLang toLang model s
    = (Throw e,
       issued s (translation_request fromLang toLang model <$> segments)).
Proof.
  intros Hperm Hk He Hothers.
  unfold translateSegmentsWithGPT, Array_map.
  erewrite bind_Normal by apply requests_issued.
  apply bind_Throw. unfold lift. f_equal.
  apply (await_Promise_all_rejected _ _ k e).
  - by rewrite length_imap.
  - by rewrite list_lookup_imap, Hk; simpl; rewrite He.
  - intros i Hne Hlt. rewrite length_imap in Hlt.
    destruct (lookup_lt_is_Some_2 segments i Hlt) as [seg Hseg].
    destruct (Hothers i seg Hne Hseg) as [r Hr].
    exists r. by rewrite list_lookup_imap, Hseg; simpl; rewrite Hr.
Qed.

Lemma translateSegmentsWithGPT_rejects_witness :
  (translateSegmentsWithGPT failing_client [1; 0] [hallo; wie_gehts]
     "de" "en" "gpt-4" initial_state).1
  = Throw (RequestError "timeout").
Proof.
  rewrite (translateSegmentsWithGPT_rejects failing_client [1; 0]
    [hallo; wie_gehts] "de" "en" "gpt-4" initial_state 1 wie_gehts
    (RequestError "timeout")).
  - reflexivity.
  - apply Permutation_swap.
  - reflexivity.
  - reflexivity.
  - intros [|[|i]] seg Hne Hseg; simplify_eq/=; eexists; reflexivity.
Defined.

(** C6.  Whenever the translator returns, it returns one output per input
    segment, and the output has the start and the end of its input. *)
Theorem translateSegmentsWithGPT_keeps_timing
    (chatCompletion : nat → ChatRequest → settled Response)
    (order : list nat) (segments translated : list (gmap string value))
    (fromLang toLang model : string) (s s' : State) :
  translateSegmentsWithGPT chatCompletion order segments fromLang toLang model s
    = (Normal translated, s') →
  length translated = length segments
  ∧ ∀ i seg, segments !! i = Some seg →
      ∃ out, translated !! i = Some out
             ∧ out !! "start" = seg !! "start"
             ∧ out !! "end" = seg !! "end".
Proof.
  intros Hrun. apply translate_Normal_inv in Hrun.
  split; [symmetry; by eapply Forall2_length|].
  intros i seg Hseg.
  destruct (Forall2_lookup_l _ _ _ _ _ Hrun Hseg) as (out & Hout & t & ->).
  exists (with_text seg t). unfold with_text.
  by rewrite !lookup_insert_ne.
Qed.

Lemma translateSegmentsWithGPT_keeps_timing_witness :
  mock_run = (Normal mock_translated, mock_run.2)
  ∧ length mock_translated = 2
  ∧ ∃ out, mock_translated !! 1 = Some out
           ∧ out !! "start" = Some (VNum (Fin (12 # 10)))
           ∧ out !! "end" = Some (VNum (Fin (35 # 10))).
Proof.
  assert (Hrun : mock_run = (Normal mock_translated, mock_run.2))
    by (vm_compute; reflexivity).
  split; [exact Hrun|].
  destruct (translateSegmentsWithGPT_keeps_timing _ _ _ _ _ _ _ _ _ Hrun)
    as [Hlen Hi].
  split; [exact Hlen|].
  destruct (Hi 1 wie_gehts eq_refl) as (out & Hout & Hstart & Hend).
  exists out. by rewrite Hstart, Hend.
Defined.

(** C10.  Whenever the translator returns, the output for a segment has
    every property of the segment other than text unchanged, absent ones
    staying absent, and a text that is a string. *)
Theorem translateSegmentsWithGPT_spreads_segment
    (chatCompletion : nat → ChatRequest → settled Response)
    (order : list nat) (segments translated : list (gmap string value))
    (fromLang toLang model : string) (s s' : State) :
  translateSegmentsWithGPT chatCompletion order segments fromLang toLang model s
    = (Normal translated, s') →
  ∀ i seg, segments !! i = Some seg →
    ∃ out, translated !! i = Some out
           ∧ (∀ key, key ≠ "text" → out !! key = seg !! key)
           ∧ (∃ translatedText, out !! "text" = Some (VStr translatedText)).
Proof.
  intros Hrun i seg Hseg. apply translate_Normal_inv in Hrun.
  destruct (Forall2_lookup_l _ _ _ _ _ Hrun Hseg) as (out & Hout & t & ->).
  exists (with_text seg t). unfold with_text. split; [done|]. split.
  - intros key Hkey. by rewrite lookup_insert_ne.
  - exists t. by rewrite lookup_insert_eq.
Qed.

Lemma translateSegmentsWithGPT_spreads_segment_witness :
  mock_run = (Normal mock_translated, mock_run.2)
  ∧ ∃ out, mock_translated !! 0 = Some out
           ∧ out !! "id" = Some (VNum (Fin 7))
           ∧ out !! "avg_logprob" = None.
Proof.
  assert (Hrun : mock_run = (Normal mock_translated, mock_run.2))
    by (vm_compute; reflexivity).
  split; [exact Hrun|].
  destruct (translateSegmentsWithGPT_spreads_segment _ _ _ _ _ _ _ _ _ Hrun
              0 hallo eq_refl) as (out & Hout & Hkeys & _).
  exists out. split; [exact Hout|].
  rewrite !Hkeys by discriminate. split; reflexivity.
Defined.

(** ** main *)

Example batch_succeeds :
  let final := (@main exampleRuntime (batch_world true) initial_state).2 in
  files final =
    {[ "/app/subtitles/a with subtitles.srt" :=
         TextFile (@buildSrtFromSegments exampleRuntime
                     [with_text hallo "Hello"; with_text wie_gehts "How are you?"]);
       "/app/with-subtitles/a with subtitles.mp4" :=
         VideoWith "/app/videos/a.mp4" "/app/subtitles/a with subtitles.srt";
       "/app/subtitles/b with subtitles.srt" :=
         TextFile (@buildSrtFromSegments exampleRuntime
                     [with_text hallo "Hello"; with_text wie_gehts "How are you?"]);
       "/app/with-subtitles/b with subtitles.mp4" :=
         VideoWith "/app/videos/b.MP4" "/app/subtitles/b with subtitles.srt" ]}
  ∧ length (requests final) = 4.
Proof. vm_compute. split; reflexivity. Qed.





(** C9.  What the code does where the claim asks for the removal: when the
    audio of a video has been extracted and its transcription fails, the
    processing of the video ends with the error thrown and the audio file
    still in place. *)
Theorem process_video_leaves_audio {RT : Runtime} (W : World)
    (VIDEOS_DIR SUBTITLES_DIR OUTPUT_DIR videoFile : string) (s : State) (e : error) :
  ffmpeg_extract W (path_join W VIDEOS_DIR videoFile)
    (path_join W (dirname W)
       (path_basename W (path_join W VIDEOS_DIR videoFile)
          (path_extname W (path_join W VIDEOS_DIR videoFile)) +:+ ".mp3"))
    = Fulfilled () →
  createTranscription W
    (path_join W (dirname W)
       (path_basename W (path_join W VIDEOS_DIR videoFile)
          (path_extname W (path_join W VIDEOS_DIR videoFile)) +:+ ".mp3"))
    "whisper-1" (prompt_fromLang W) = Rejected e →
  ∃ s',
    process_video W VIDEOS_DIR SUBTITLES_DIR OUTPUT_DIR videoFile s = (Throw e, s')
    ∧ files s' !!
        path_join W (dirname W)
          (path_basename W (path_join W VIDEOS_DIR videoFile)
             (path_extname W (path_join W VIDEOS_DIR videoFile)) +:+ ".mp3")
      = Some (AudioOf (path_join W VIDEOS_DIR videoFile)).
Proof.
  intros Hextract Htranscribe.
  unfold process_video, extractAudio. cbv zeta.
  unfold mbind, M_bind, console_log, set_file, mret, M_ret. cbn [files console requests].
  rewrite Hextract. cbn [await]. unfold mret, M_ret.
  rewrite Htranscribe. cbn [await]. unfold throw.
  eexists. split; [reflexivity|]. cbn [files]. apply lookup_insert_eq.
Qed.

Lemma process_video_leaves_audio_witness :
  ∃ s',
    @process_video exampleRuntime (batch_world false) "/app/videos"
      "/app/subtitles" "/app/with-subtitles" "a.mp4" initial_state
      = (Throw (RequestError "transcription failed"), s')
    ∧ files s' !! "/app/a.mp3" = Some (AudioOf "/app/videos/a.mp4").
Proof.
  exact (@process_video_leaves_audio exampleRuntime (batch_world false)
           "/app/videos" "/app/subtitles" "/app/with-subtitles" "a.mp4"
           initial_state (RequestError "transcription failed")
           eq_refl eq_refl).
Defined.

(** The whole run on the batch: the audio of the failed video stays, and it
    is removed when every stage succeeds. *)
Example main_leaves_audio_on_failure :
  files (@main exampleRuntime (batch_world false) initial_state).2
    !! "/app/a.mp3" = Some (AudioOf "/app/videos/a.mp4")
  ∧ files (@main exampleRuntime (batch_world true) initial_state).2
      !! "/app/a.mp3" = None.
Proof. vm_compute. split; reflexivity. Qed.

(** The scenario of the specification, end to end: the translated segments
    of the mock run give the expected document. *)
Example end_to_end_document :
  @buildSrtFromSegments exampleRuntime mock_translated =
    "1" +:+ LF +:+ "00:00:00,000 --> 00:00:01,200" +:+ LF +:+ "Hello" +:+ LF +:+ LF +:+
    "2" +:+ LF +:+ "00:00:01,200 --> 00:00:03,500" +:+ LF +:+ "How are you?" +:+ LF +:+ LF.
Proof. vm_compute. reflexivity. Qed.

(** A request that never settles leaves the translator suspended. *)
Example translator_pending :
  (translateSegmentsWithGPT mock_client [0] [hallo; wie_gehts]
     "de" "en" "gpt-4" initial_state).1 = Pending.
Proof. vm_compute. reflexivity. Qed.
(** * Further properties *)

(** ** The fields of a time *)

Local Open Scope Z_scope.























Local Close Scope Z_scope.

(** ** The builder *)

(** X5.  The document of two sequences one after the other is the
    document of the first followed by the blocks of the second, numbered on
    from the length of the first. *)
Theorem buildSrtFromSegments_app {RT : Runtime}
    (first second : list (gmap string value)) :
  buildSrtFromSegments (first ++ second) =
    buildSrtFromSegments first +:+
    concat_blocks (imap (λ j, cue_block (length first + j)) second).
Proof.
  rewrite !buildSrtFromSegments_blocks.
  by rewrite imap_app, concat_blocks_app.
Qed.

(** X6.  The builder reads nothing but start, end and text: two sequences
    whose segments agree on these three properties give the same document,
    whatever else the segments carry. *)
Theorem buildSrtFromSegments_reads_three_properties {RT : Runtime}
    (segments segments' : list (gmap string value)) :
  Forall2 (λ seg seg',
    seg !! "start" = seg' !! "start" ∧ seg !! "end" = seg' !! "end"
    ∧ seg !! "text" = seg' !! "text") segments segments' →
  buildSrtFromSegments segments = buildSrtFromSegments segments'.
Proof.
  intros Hagree. rewrite !buildSrtFromSegments_blocks. f_equal.
  apply list_eq. intros i. rewrite !list_lookup_imap.
  destruct (segments !! i) as [seg|] eqn:Hseg.
  - destruct (Forall2_lookup_l _ _ _ _ _ Hagree Hseg)
      as (seg' & -> & Hstart & Hend & Htext).
    simpl. f_equal. unfold cue_block, get.
    by rewrite Hstart, Hend, Htext.
  - apply Forall2_length in Hagree.
    apply lookup_ge_None_1 in Hseg.
    by rewrite (lookup_ge_None_2 segments') by lia.
Qed.

Lemma buildSrtFromSegments_reads_three_properties_witness :
  @buildSrtFromSegments exampleRuntime
    [<["id" := VStr "x"]> hallo; delete "id" wie_gehts]
  = @buildSrtFromSegments exampleRuntime [hallo; wie_gehts].
Proof.
  apply (@buildSrtFromSegments_reads_three_properties exampleRuntime).
  repeat constructor.
Defined.

(** X7.  A segment without start, end and text is not rejected: its block
    shows both times as NaN:NaN:NaN,NaN and the text as undefined. *)
Theorem buildSrtFromSegments_missing_properties {RT : Runtime}
    (segments : list (gmap string value)) (i : nat) (seg : gmap string value) :
  segments !! i = Some seg →
  seg !! "start" = None → seg !! "end" = None → seg !! "text" = None →
  ∃ before after,
    buildSrtFromSegments segments =
      before +:+
      (pretty (Z.of_nat i + 1)%Z +:+ LF +:+
       "NaN:NaN:NaN,NaN --> NaN:NaN:NaN,NaN" +:+ LF +:+
       "undefined" +:+ LF +:+ LF) +:+
      after.
Proof.
  intros Hi Hstart Hend Htext.
  apply list_elem_of_split_length in Hi as (l1 & l2 & -> & ->).
  rewrite buildSrtFromSegments_blocks.
  rewrite imap_app, imap_cons, concat_blocks_app, Nat.add_0_r.
  exists (concat_blocks (imap cue_block l1)).
  eexists. f_equal. unfold concat_blocks at 1. cbn [foldr]. f_equal.
  unfold cue_block, get. rewrite Hstart, Hend, Htext. reflexivity.
Qed.

Lemma buildSrtFromSegments_missing_properties_witness :
  ∃ before after,
    @buildSrtFromSegments exampleRuntime [hallo; ∅] =
      before +:+
      ("2" +:+ LF +:+ "NaN:NaN:NaN,NaN --> NaN:NaN:NaN,NaN" +:+ LF +:+
       "undefined" +:+ LF +:+ LF) +:+
      after.
Proof.
  exact (@buildSrtFromSegments_missing_properties exampleRuntime
           [hallo; ∅] 1 ∅ eq_refl (lookup_empty _) (lookup_empty _)
           (lookup_empty _)).
Defined.

(** ** The translator: requests and failures *)

Lemma map_from_state {A B : Type} (callback : A → nat → M B) (array : list A) :
  (∀ x i s, (callback x i s).2 = s) →
  ∀ i s, (map_from callback array i s).2 = s.
Proof.
  intros Hcb. induction array as [|x array IH]; intros i s; [done|].
  cbn [map_from]. unfold mbind, M_bind.
  specialize (Hcb x i s). destruct (callback x i s) as [[b | e |] s1];
    simpl in Hcb; subst s1; [|done..].
  specialize (IH (S i) s).
  destruct (map_from callback array (S i) s) as [[bs | e |] s2];
    simpl in IH; subst s2; done.
Qed.

(** Whatever the outcome, the translator leaves the state with the
    requests of all segments issued and nothing else changed. *)
Lemma translate_state
    (chatCompletion : nat → ChatRequest → settled Response)
    (order : list nat) (segments : list (gmap string value))
    (fromLang toLang model : string) (s : State) :
  (translateSegmentsWithGPT chatCompletion order segments fromLang toLang model s).2
  = issued s (translation_request fromLang toLang model <$> segments).
Proof.
  unfold translateSegmentsWithGPT, Array_map.
  erewrite bind_Normal by apply requests_issued.
  unfold mbind, M_bind, lift.
  destruct (await_Promise_all _ order) as [responses | e |]; [|done..].
  apply map_from_state. intros seg i s0.
  destruct (responses !! i) as [r|]; [|done].
  by destruct (choices (data r)).
Qed.

(** X8.  Whatever the client answers and in whatever order, and whether
    the translator returns, throws or stays pending, it has issued exactly
    one request per segment, in the order of the segments, and has changed
    neither the files nor the console. *)
Theorem translateSegmentsWithGPT_issues_every_request
    (chatCompletion : nat → ChatRequest → settled Response)
    (order : list nat) (segments : list (gmap string value))
    (fromLang toLang model : string) (s : State) :
  requests
    (translateSegmentsWithGPT chatCompletion order segments
       fromLang toLang model s).2
  = (requests s ++ (translation_request fromLang toLang model <$> segments))%list
  ∧ files
      (translateSegmentsWithGPT chatCompletion order segments
         fromLang toLang model s).2 = files s
  ∧ console
      (translateSegmentsWithGPT chatCompletion order segments
         fromLang toLang model s).2 = console s.
Proof.
  rewrite translate_state. unfold issued. cbn [requests files console].
  by repeat split.
Qed.

(** A response without a choice makes the second [map] throw. *)
Lemma segments_rebuilt_malformed (responses : list Response)
    (segments : list (gmap string value)) (s : State) :
  length responses = length segments →
  Exists (λ r, choices (data r) = []) responses →
  ∀ i (pre : list Response), length pre = i →
  map_from (λ seg i,
    match (pre ++ responses)%list !! i with
    | None => throw (TypeError "Cannot read properties of undefined (reading 'data')")
    | Some response =>
        match choices (data response) with
        | [] => throw (TypeError "Cannot read properties of undefined (reading 'message')")
        | choice :: _ =>
            mret (<["text" := VStr (or_empty
                    (m ← message choice; c ← message_content m; Some (trim c)))]> seg)
        end
    end) segments i s =
  (Throw (TypeError "Cannot read properties of undefined (reading 'message')"), s).
Proof.
  revert responses. induction segments as [|seg segments IH];
    intros responses Hlen Hex i pre Hpre.
  { destruct responses; [by apply Exists_nil in Hex | done]. }
  destruct responses as [|r responses]; [done|].
  cbn [map_from].
  rewrite lookup_app_r, Hpre, Nat.sub_diag by lia. cbn [lookup list_lookup].
  destruct (choices (data r)) as [|choice rest] eqn:Hch.
  { by apply bind_Throw. }
  apply Exists_cons in Hex as [Hr | Hex]; [congruence|].
  erewrite bind_Normal by reflexivity.
  apply bind_Throw.
  specialize (IH responses ltac:(simpl in Hlen; lia) Hex (S i) (pre ++ [r])%list).
  rewrite <- app_assoc in IH. apply IH. rewrite length_app. simpl. lia.
Qed.

(** X9.  When every request is fulfilled but some response has no choice,
    the translator throws the TypeError of reading message of undefined,
    after all requests were issued. *)
Theorem translateSegmentsWithGPT_malformed_response
    (chatCompletion : nat → ChatRequest → settled Response)
    (order : list nat) (segments : list (gmap string value))
    (responses : list Response) (fromLang toLang model : string) (s : State) :
  length responses = length segments →
  order ≡ₚ seq 0 (length segments) →
  (∀ i seg r, segments !! i = Some seg → responses !! i = Some r →
     chatCompletion (length (requests s) + i)
       (translation_request fromLang toLang model seg) = Fulfilled r) →
  Exists (λ r, choices (data r) = []) responses →
  translateSegmentsWithGPT chatCompletion order segments fromLang toLang model s
  = (Throw (TypeError "Cannot read properties of undefined (reading 'message')"),
     issued s (translation_request fromLang toLang model <$> segments)).
Proof.
  intros Hlen Hperm Hchat Hex.
  unfold translateSegmentsWithGPT, Array_map.
  erewrite bind_Normal by apply requests_issued.
  assert (Hpromises :
    imap (λ j seg, chatCompletion (length (requests s) + j)
                     (translation_request fromLang toLang model seg)) segments
    = Fulfilled <$> responses).
  { apply list_eq. intros i. rewrite list_lookup_imap, list_lookup_fmap.
    destruct (segments !! i) as [seg|] eqn:Hseg; simpl.
    - destruct (lookup_lt_is_Some_2 responses i) as [r Hr].
      { apply lookup_lt_Some in Hseg. lia. }
      rewrite Hr. simpl. f_equal. eauto.
    - apply lookup_ge_None_1 in Hseg.
      by rewrite (lookup_ge_None_2 responses) by lia. }
  rewrite Hpromises.
  rewrite (bind_Normal _ _ _
             (issued s (translation_request fromLang toLang model <$> segments))
             responses).
  2:{ unfold lift. by rewrite await_Promise_all_fulfilled by (by rewrite Hlen). }
  by apply (segments_rebuilt_malformed responses segments _ Hlen Hex 0 []).
Qed.

Lemma translateSegmentsWithGPT_malformed_response_witness :
  (translateSegmentsWithGPT (λ _ _, Fulfilled {| data := {| choices := [] |} |})
     [0] [hallo] "de" "en" "gpt-4" initial_state).1
  = Throw (TypeError "Cannot read properties of undefined (reading 'message')").
Proof.
  rewrite (translateSegmentsWithGPT_malformed_response
             (λ _ _, Fulfilled {| data := {| choices := [] |} |})
             [0] [hallo] [ {| data := {| choices := [] |} |} ]
             "de" "en" "gpt-4" initial_state).
  - reflexivity.
  - reflexivity.
  - reflexivity.
  - intros i seg r _ Hr. destruct i as [|i]; simplify_eq/=; reflexivity.
  - by constructor.
Defined.

(** ** Promise.all for an arbitrary order of settlement *)

Section PromiseAllAnyOrder.
Context {A : Type}.
Implicit Types (promises : list (settled A)) (values : list (option A)).

Lemma outstanding_initial promises :
  outstanding promises (replicate (length promises) None)
    (seq 0 (length promises)).
Proof.
  split; [apply NoDup_seq|]. split; [apply length_replicate|]. split.
  - intros i Hi%elem_of_seq. apply lookup_replicate_2. lia.
  - intros i Hi Hlt. rewrite length_replicate in Hlt.
    exfalso. apply Hi, elem_of_seq. lia.
Qed.

Lemma outstanding_fill promises values pend index v :
  outstanding promises values pend →
  promises !! index = Some (Fulfilled v) →
  values !! index = Some None →
  ∃ pend', pend ≡ₚ index :: pend'
           ∧ outstanding promises (<[index := Some v]> values) pend'.
Proof.
  intros (Hnd & Hlen & Hin & Hout) Hp Hv.
  assert (Hmem : index ∈ pend).
  { destruct (decide (index ∈ pend)) as [? | Hno]; [done|].
    destruct (Hout index Hno) as (v' & Hv' & _); [by eapply lookup_lt_Some|].
    congruence. }
  apply elem_of_Permutation in Hmem as [pend' Hperm].
  exists pend'. split; [done|].
  rewrite Hperm in Hnd. apply NoDup_cons in Hnd as [Hnotin Hnd'].
  split; [done|]. split; [by rewrite length_insert|]. split.
  - intros i Hi. rewrite list_lookup_insert_ne by set_solver.
    apply Hin. rewrite Hperm. set_solver.
  - intros i Hi Hlt. rewrite length_insert in Hlt.
    destruct (decide (i = index)) as [-> | Hne].
    + exists v. by rewrite list_lookup_insert_eq.
    + rewrite list_lookup_insert_ne by done.
      apply Hout; [|done]. rewrite Hperm. set_solver.
Qed.

Lemma outstanding_none promises values :
  outstanding promises values [] →
  promises = Fulfilled <$> omap id values.
Proof.
  intros (_ & Hlen & _ & Hout).
  assert (Hall : ∀ i, i < length values →
            ∃ v, values !! i = Some (Some v) ∧ promises !! i = Some (Fulfilled v)).
  { intros i Hi. apply Hout; [set_solver | done]. }
  clear Hout. revert promises Hlen Hall.
  induction values as [|o values IH]; intros [|p promises] Hlen Hall;
    simplify_eq/=; [done|].
  destruct (Hall 0) as (v & Hv & Hp); [lia|]. simplify_eq/=.
  f_equal. apply IH; [done|].
  intros i Hi. apply (Hall (S i)). lia.
Qed.

(** The whole is fulfilled only when every promise was, and then with the
    values in the order of the promises. *)
Lemma Promise_all_loop_Normal_inv promises order values pend vs :
  outstanding promises values pend →
  Promise_all_loop promises order values (length pend) = Normal vs →
  promises = Fulfilled <$> vs.
Proof.
  revert values pend. induction order as [|index order IH];
    intros values pend Hinv Hrun; [done|].
  cbn [Promise_all_loop] in Hrun.
  destruct (promises !! index) as [[v | e]|] eqn:Hp; [| done | by eapply IH].
  destruct (values !! index) as [[v' |]|] eqn:Hv; [by eapply IH | | by eapply IH].
  destruct (outstanding_fill _ _ _ _ _ Hinv Hp Hv) as (pend' & Hperm & Hinv').
  assert (Hl : length pend - 1 = length pend').
  { rewrite (Permutation_length Hperm). cbn. lia. }
  rewrite Hl in Hrun.
  destruct pend' as [|j pend'].
  - cbn in Hrun. injection Hrun as <-. by apply outstanding_none.
  - exact (IH _ (j :: pend') Hinv' Hrun).
Qed.

Lemma await_Promise_all_Normal_inv promises order vs :
  await_Promise_all promises order = Normal vs →
  promises = Fulfilled <$> vs.
Proof.
  unfold await_Promise_all. intros Hrun.
  destruct promises as [|p ps]; [by injection Hrun as <-|].
  eapply Promise_all_loop_Normal_inv; [apply outstanding_initial|].
  rewrite length_seq. exact Hrun.
Qed.

(** While a promise that never settles is outstanding, the whole stays
    pending. *)
Lemma Promise_all_loop_pending promises order values pend k :
  outstanding promises values pend →
  k ∈ pend → k ∉ order →
  (∀ i, i ∈ order → ∃ v, promises !! i = Some (Fulfilled v)) →
  Promise_all_loop promises order values (length pend) = Pending.
Proof.
  revert values pend. induction order as [|index order IH];
    intros values pend Hinv Hk Hnotin Hful; [done|].
  cbn [Promise_all_loop].
  destruct (Hful index) as [v Hp]; [set_solver|]. rewrite Hp.
  assert (Hrest : ∀ i, i ∈ order → ∃ v, promises !! i = Some (Fulfilled v)).
  { intros i ?. apply Hful. set_solver. }
  assert (k ∉ order) by set_solver.
  destruct (values !! index) as [[v' |]|] eqn:Hv; [by eapply IH | | by eapply IH].
  destruct (outstanding_fill _ _ _ _ _ Hinv Hp Hv) as (pend' & Hperm & Hinv').
  assert (Hk' : k ∈ pend').
  { rewrite Hperm in Hk. set_solver. }
  assert (Hl : length pend - 1 = length pend').
  { rewrite (Permutation_length Hperm). cbn. lia. }
  rewrite Hl.
  destruct pend' as [|j pend']; [set_solver|].
  by apply (IH _ (j :: pend')).
Qed.

(** The rejection that settles first rejects the whole, whatever settles
    after it. *)
Lemma Promise_all_loop_first_rejection promises (pre post : list nat) k e
    values remaining :
  promises !! k = Some (Rejected e) →
  (∀ i, i ∈ pre → ∃ v, promises !! i = Some (Fulfilled v)) →
  length pre < remaining →
  Promise_all_loop promises (pre ++ k :: post) values remaining = Throw e.
Proof.
  intros He. revert values remaining.
  induction pre as [|index pre IH]; intros values remaining Hful Hlen.
  { cbn. by rewrite He. }
  cbn [app Promise_all_loop].
  destruct (Hful index) as [v ->]; [set_solver|].
  assert (Hrest : ∀ i, i ∈ pre → ∃ v, promises !! i = Some (Fulfilled v)).
  { intros i ?. apply Hful. set_solver. }
  cbn [length] in Hlen.
  destruct (values !! index) as [[v' |]|];
    [apply IH; [done | lia] | | apply IH; [done | lia]].
  destruct (Nat.eqb_spec (remaining - 1) 0) as [? | _]; [lia|].
  apply IH; [done | lia].
Qed.
End PromiseAllAnyOrder.

Lemma await_Promise_all_nonempty {A : Type} (promises : list (settled A))
    (order : list nat) :
  promises ≠ [] →
  await_Promise_all promises order =
    Promise_all_loop promises order (replicate (length promises) None)
      (length promises).
Proof. by destruct promises. Qed.

Section TranslatorAnyOrder.
Variable chatCompletion : nat → ChatRequest → settled Response.
Variables fromLang toLang model : string.

#[local] Abbreviation request := (translation_request fromLang toLang model).
#[local] Abbreviation promises_of s segments :=
  (imap (λ j seg, chatCompletion (length (requests s) + j) (request seg)) segments).

Lemma promises_of_lookup (s : State) (segments : list (gmap string value))
    (i : nat) (seg : gmap string value) :
  segments !! i = Some seg →
  promises_of s segments !! i
  = Some (chatCompletion (length (requests s) + i) (request seg)).
Proof. intros Hseg. by rewrite list_lookup_imap, Hseg. Qed.

(** What the translator does up to the [await]. *)
Lemma translate_rejected (order : list nat) (segments : list (gmap string value))
    (s : State) (e : error) :
  await_Promise_all (promises_of s segments) order = Throw e →
  translateSegmentsWithGPT chatCompletion order segments fromLang toLang model s
  = (Throw e, issued s (request <$> segments)).
Proof.
  intros Hall. unfold translateSegmentsWithGPT, Array_map.
  erewrite bind_Normal by apply requests_issued.
  apply bind_Throw. unfold lift. by rewrite Hall.
Qed.

Lemma translate_pending (order : list nat) (segments : list (gmap string value))
    (s : State) :
  await_Promise_all (promises_of s segments) order = Pending →
  translateSegmentsWithGPT chatCompletion order segments fromLang toLang model s
  = (Pending, issued s (request <$> segments)).
Proof.
  intros Hall. unfold translateSegmentsWithGPT, Array_map.
  erewrite bind_Normal by apply requests_issued.
  unfold mbind, M_bind, lift. by rewrite Hall.
Qed.
End TranslatorAnyOrder.

(** X10.  With several failing requests the error thrown is that of the
    rejection that settles first: when the requests that settle before a
    rejected one were all fulfilled, the translator throws the error of that
    one, whatever settles after it. *)
Theorem translateSegmentsWithGPT_first_rejection
    (chatCompletion : nat → ChatRequest → settled Response)
    (before after : list nat) (k : nat) (segments : list (gmap string value))
    (fromLang toLang model : string) (s : State)
    (failed : gmap string value) (e : error) :
  NoDup before →
  (∀ i, i ∈ before → ∃ seg r,
     segments !! i = Some seg
     ∧ chatCompletion (length (requests s) + i)
         (translation_request fromLang toLang model seg) = Fulfilled r) →
  segments !! k = Some failed →
  chatCompletion (length (requests s) + k)
    (translation_request fromLang toLang model failed) = Rejected e →
  translateSegmentsWithGPT chatCompletion (before ++ k :: after) segments
    fromLang toLang model s
  = (Throw e, issued s (translation_request fromLang toLang model <$> segments)).
Proof.
  intros Hnd Hbefore Hk He. apply translate_rejected.
  rewrite await_Promise_all_nonempty.
  2:{ intros Hnil. apply (f_equal length) in Hnil.
      rewrite length_imap in Hnil. apply lookup_lt_Some in Hk.
      simpl in Hnil. lia. }
  apply Promise_all_loop_first_rejection.
  - by rewrite (promises_of_lookup _ _ _ _ _ _ _ failed), He.
  - intros i Hi. destruct (Hbefore i Hi) as (seg & r & Hseg & Hr).
    exists r. by rewrite (promises_of_lookup _ _ _ _ _ _ _ seg), Hr.
  - rewrite length_imap.
    assert (Hnotin : k ∉ before).
    { intros Hin. destruct (Hbefore k Hin) as (seg & r & Hseg & Hr).
      congruence. }
    assert (Hsub : (k :: before) ⊆+ seq 0 (length segments)).
    { apply NoDup_submseteq; [by apply NoDup_cons|].
      intros i [-> | Hi]%elem_of_cons; apply elem_of_seq.
      - apply lookup_lt_Some in Hk. lia.
      - destruct (Hbefore i Hi) as (seg & r & Hseg%lookup_lt_Some & _). lia. }
    apply submseteq_length in Hsub. rewrite length_seq in Hsub.
    simpl in Hsub. lia.
Qed.

(** X11.  There is no timeout: when a request never settles and the ones
    that settle are fulfilled, the translator stays pending, with all
    requests issued. *)
Theorem translateSegmentsWithGPT_never_settles
    (chatCompletion : nat → ChatRequest → settled Response)
    (order : list nat) (k : nat) (segments : list (gmap string value))
    (fromLang toLang model : string) (s : State) :
  (∀ i, i ∈ order → ∃ seg r,
     segments !! i = Some seg
     ∧ chatCompletion (length (requests s) + i)
         (translation_request fromLang toLang model seg) = Fulfilled r) →
  k < length segments →
  k ∉ order →
  translateSegmentsWithGPT chatCompletion order segments fromLang toLang model s
  = (Pending, issued s (translation_request fromLang toLang model <$> segments)).
Proof.
  intros Horder Hk Hnotin. apply translate_pending.
  rewrite await_Promise_all_nonempty.
  2:{ intros Hnil. apply (f_equal length) in Hnil.
      rewrite length_imap in Hnil. simpl in Hnil. lia. }
  set (promises := imap _ segments).
  pose proof (Promise_all_loop_pending promises order _ _ k
                (outstanding_initial promises)) as Hloop.
  rewrite length_seq in Hloop. apply Hloop.
  - apply elem_of_seq. unfold promises. rewrite length_imap. lia.
  - done.
  - intros i Hi. destruct (Horder i Hi) as (seg & r & Hseg & Hr).
    exists r. unfold promises.
    by rewrite (promises_of_lookup _ _ _ _ _ _ _ seg), Hr.
Qed.

Lemma translateSegmentsWithGPT_first_rejection_witness :
  (translateSegmentsWithGPT two_failures_client [0; 2; 1] [hallo; wie_gehts; hallo]
     "de" "en" "gpt-4" initial_state).1
  = Throw (RequestError "quota").
Proof.
  refine (f_equal fst
    (translateSegmentsWithGPT_first_rejection two_failures_client
       [0] [1] 2 [hallo; wie_gehts; hallo] "de" "en" "gpt-4"
       initial_state hallo (RequestError "quota") _ _ eq_refl eq_refl)).
  - apply NoDup_singleton.
  - intros i ->%list_elem_of_singleton. by exists hallo, (reply "Hello").
Defined.

Lemma translateSegmentsWithGPT_never_settles_witness :
  (translateSegmentsWithGPT mock_client [0] [hallo; wie_gehts]
     "de" "en" "gpt-4" initial_state).1 = Pending.
Proof.
  rewrite (translateSegmentsWithGPT_never_settles mock_client [0] 1
             [hallo; wie_gehts] "de" "en" "gpt-4" initial_state).
  - reflexivity.
  - intros i ->%list_elem_of_singleton. by exists hallo, (reply " Hello ").
  - simpl. lia.
  - by intros ?%list_elem_of_singleton.
Defined.

(** A [map] whose callback returns normally yields one image per element,
    related to the element and its index. *)
Lemma map_from_Normal_lookup {A B : Type} (R : nat → A → B → Prop)
    (callback : A → nat → M B) (array : list A) :
  (∀ x i s b s', callback x i s = (Normal b, s') → R i x b) →
  ∀ i s bs s', map_from callback array i s = (Normal bs, s') →
    length bs = length array
    ∧ ∀ j x, array !! j = Some x → ∃ b, bs !! j = Some b ∧ R (i + j) x b.
Proof.
  intros Hcb. induction array as [|x array IH]; intros i s bs s' Hrun.
  - cbn in Hrun. injection Hrun as <- _. by split.
  - cbn [map_from] in Hrun.
    apply bind_Normal_inv in Hrun as (b & s1 & Hb & Hrun).
    apply bind_Normal_inv in Hrun as (bs' & s2 & Hbs & Hrun).
    cbn in Hrun. injection Hrun as <- _.
    destruct (IH _ _ _ _ Hbs) as [Hlen Hlookup].
    split; [cbn; by rewrite Hlen|].
    intros [|j] y Hy; simplify_eq/=.
    + exists b. rewrite Nat.add_0_r. eauto.
    + destruct (Hlookup j y Hy) as (b' & ? & ?). exists b'.
      by rewrite Nat.add_succ_r.
Qed.

(** X12.  The translator returns only complete results: if it returns,
    for every order of settlement, then every request was fulfilled with a
    response that has a choice, and each output is its own segment with the
    text of its own response. *)
Theorem translateSegmentsWithGPT_returns_only_complete
    (chatCompletion : nat → ChatRequest → settled Response)
    (order : list nat) (segments translated : list (gmap string value))
    (fromLang toLang model : string) (s s' : State) :
  translateSegmentsWithGPT chatCompletion order segments fromLang toLang model s
    = (Normal translated, s') →
  length translated = length segments
  ∧ ∀ i seg, segments !! i = Some seg →
      ∃ r, chatCompletion (length (requests s) + i)
             (translation_request fromLang toLang model seg) = Fulfilled r
           ∧ well_formed r
           ∧ translated !! i = Some (with_text seg (response_text r)).
Proof.
  unfold translateSegmentsWithGPT, Array_map. intros Hrun.
  apply bind_Normal_inv in Hrun as (promises & s1 & Hp & Hrun).
  pose proof (eq_trans (eq_sym Hp)
    (requests_issued chatCompletion fromLang toLang model segments 0 s)) as Hiss.
  injection Hiss as -> ->. clear Hp.
  apply bind_Normal_inv in Hrun as (responses & s2 & Hall & Hrun).
  unfold lift in Hall. injection Hall as Hall <-.
  apply await_Promise_all_Normal_inv in Hall.
  eapply (map_from_Normal_lookup (λ i seg out,
            ∃ r, responses !! i = Some r ∧ well_formed r
                 ∧ out = with_text seg (response_text r))) in Hrun.
  - destruct Hrun as [Hlen Hlookup]. split; [done|].
    intros i seg Hseg.
    specialize (Hlookup i seg Hseg). cbn [Nat.add] in Hlookup.
    destruct Hlookup as (out & Hout & r & Hr & Hwf & ->).
    exists r. split; [|done].
    apply (f_equal (λ l, l !! i)) in Hall.
    rewrite list_lookup_imap, Hseg, list_lookup_fmap, Hr in Hall.
    by injection Hall.
  - intros seg i s0 out s0' Hcb. cbv beta in Hcb.
    destruct (responses !! i) as [r|]; [|discriminate].
    exists r. split; [done|]. unfold well_formed, with_text, response_text.
    destruct (choices (data r)) as [|choice rest]; [discriminate|].
    injection Hcb as <- _. done.
Qed.

Lemma translateSegmentsWithGPT_returns_only_complete_witness :
  mock_run = (Normal mock_translated, mock_run.2)
  ∧ length mock_translated = 2
  ∧ ∃ r, mock_client 0 (translation_request "de" "en" "gpt-4" hallo) = Fulfilled r
         ∧ mock_translated !! 0 = Some (with_text hallo (response_text r)).
Proof.
  assert (Hrun : mock_run = (Normal mock_translated, mock_run.2))
    by (vm_compute; reflexivity).
  split; [exact Hrun|].
  destruct (translateSegmentsWithGPT_returns_only_complete _ _ _ _ _ _ _ _ _ Hrun)
    as [Hlen Hi].
  split; [exact Hlen|].
  destruct (Hi 0 hallo eq_refl) as (r & Hr & _ & Hout).
  exists r. split; [exact Hr | exact Hout].
Defined.

(** ** The translated text *)

Lemma rev_app_app (s1 s2 : string) :
  String.rev_app s1 s2 = String.rev s1 +:+ s2.
Proof.
  unfold String.rev. revert s2.
  induction s1 as [|a s1 IH]; intros s2; [done|].
  cbn [String.rev_app]. rewrite (IH (String a s2)), (IH (String a "")).
  by rewrite string_app_assoc.
Qed.

Lemma rev_cons (a : ascii) (s : string) :
  String.rev (String a s) = String.rev s +:+ String a "".
Proof. unfold String.rev at 1. cbn [String.rev_app]. apply rev_app_app. Qed.

Lemma rev_snoc (a : ascii) (s : string) :
  String.rev (s +:+ String a "") = String a (String.rev s).
Proof.
  induction s as [|b s IH]; [done|].
  by rewrite string_app_cons, !rev_cons, IH.
Qed.

Lemma rev_involutive (s : string) : String.rev (String.rev s) = s.
Proof.
  induction s as [|a s IH]; [done|].
  by rewrite rev_cons, rev_snoc, IH.
Qed.

Lemma trimStart_cases (s : string) :
  trimStart s = ""
  ∨ ∃ c r, trimStart s = String c r ∧ is_white_space c = false.
Proof.
  induction s as [|c s IH]; [by left|].
  cbn [trimStart]. destruct (is_white_space c) eqn:Hc; [done|].
  right. eauto.
Qed.

Lemma trimStart_fixed (c : ascii) (r : string) :
  is_white_space c = false → trimStart (String c r) = String c r.
Proof. intros Hc. cbn [trimStart]. by rewrite Hc. Qed.

Lemma trimStart_idempotent (s : string) :
  trimStart (trimStart s) = trimStart s.
Proof.
  destruct (trimStart_cases s) as [-> | (c & r & -> & Hc)]; [done|].
  by apply trimStart_fixed.
Qed.

Lemma trimStart_snoc (c : ascii) (s : string) :
  is_white_space c = false →
  trimStart (s +:+ String c "") = trimStart s +:+ String c "".
Proof.
  intros Hc. induction s as [|a s IH].
  - exact (trimStart_fixed c "" Hc).
  - rewrite string_app_cons. cbn [trimStart].
    destruct (is_white_space a); [done|]. by rewrite string_app_cons.
Qed.


(** A trimmed string is empty or begins and ends with characters that are
    not white space. *)
Lemma trim_cases (s : string) :
  trim s = ""
  ∨ ∃ c x, is_white_space c = false
           ∧ trim s = String c x
           ∧ String.rev (trim s) = trimStart (String.rev (trim s)).
Proof.
  unfold trim.
  destruct (trimStart_cases s) as [-> | (c & r & -> & Hc)]; [by left|].
  right. rewrite rev_cons, trimStart_snoc, rev_snoc by done.
  exists c, (String.rev (trimStart (String.rev r))).
  split; [done|]. split; [done|].
  rewrite rev_cons, rev_involutive, trimStart_snoc, trimStart_idempotent by done.
  done.
Qed.

Lemma trim_trimmed (s : string) :
  trimStart (trim s) = trim s
  ∧ trimStart (String.rev (trim s)) = String.rev (trim s).
Proof.
  destruct (trim_cases s) as [-> | (c & x & Hc & Heq & Hrev)]; [done|].
  split; [|done]. rewrite Heq. by apply trimStart_fixed.
Qed.


Lemma response_text_cases (r : Response) :
  response_text r = "" ∨ ∃ c, response_text r = trim c.
Proof.
  unfold response_text.
  destruct (head (choices (data r))) as [choice|]; [|by left]. cbn.
  destruct (message choice) as [m|]; [|by left]. cbn.
  destruct (message_content m) as [c|]; [|by left]. cbn.
  destruct (trim c) as [|a x] eqn:Htrim; [by left|].
  right. exists c. by rewrite Htrim.
Qed.


(** X13.  The text of every translated segment is trimmed: it neither
    begins nor ends with white space. *)
Theorem translateSegmentsWithGPT_text_trimmed
    (chatCompletion : nat → ChatRequest → settled Response)
    (order : list nat) (segments translated : list (gmap string value))
    (fromLang toLang model : string) (s s' : State) :
  translateSegmentsWithGPT chatCompletion order segments fromLang toLang model s
    = (Normal translated, s') →
  ∀ i out, translated !! i = Some out →
    ∃ t, out !! "text" = Some (VStr t)
         ∧ trimStart t = t
         ∧ trimStart (String.rev t) = String.rev t.
Proof.
  intros Hrun i out Hout.
  unfold translateSegmentsWithGPT, Array_map in Hrun.
  apply bind_Normal_inv in Hrun as (promises & s1 & _ & Hrun).
  apply bind_Normal_inv in Hrun as (responses & s2 & _ & Hrun).
  eapply (map_from_Normal_inv (λ seg out,
            ∃ r, out = with_text seg (response_text r))) in Hrun.
  - destruct (Forall2_lookup_r _ _ _ _ _ Hrun Hout) as (seg & _ & r & ->).
    exists (response_text r). unfold with_text.
    split; [by rewrite lookup_insert_eq|].
    destruct (response_text_cases r) as [-> | [c ->]]; [done|].
    apply trim_trimmed.
  - intros seg j s0 out' s0' Hcb. cbv beta in Hcb.
    destruct (responses !! j) as [r|]; [|discriminate].
    exists r. unfold with_text, response_text.
    destruct (choices (data r)) as [|choice rest]; [discriminate|].
    injection Hcb as <- _. done.
Qed.

Lemma translateSegmentsWithGPT_text_trimmed_witness :
  mock_run = (Normal mock_translated, mock_run.2)
  ∧ ∃ out t, mock_translated !! 0 = Some out
             ∧ out !! "text" = Some (VStr t)
             ∧ trimStart t = t
             ∧ trimStart (String.rev t) = String.rev t.
Proof.
  assert (Hrun : mock_run = (Normal mock_translated, mock_run.2))
    by (vm_compute; reflexivity).
  split; [exact Hrun|].
  exists (with_text hallo "Hello").
  destruct (translateSegmentsWithGPT_text_trimmed _ _ _ _ _ _ _ _ _ Hrun
              0 (with_text hallo "Hello")) as (t & Ht & H1 & H2).
  - vm_compute. reflexivity.
  - exists t. split; [vm_compute; reflexivity|]. split; [exact Ht|].
    split; [exact H1 | exact H2].
Defined.



(** ** main and the processing of one video *)

Section MainFacts.
Context {RT : Runtime}.
Variable W : World.

Lemma await_Normal_inv {A : Type} (p : settled A) (s s' : State) (a : A) :
  await p s = (Normal a, s') → p = Fulfilled a ∧ s' = s.
Proof. destruct p as [a' | e]; intros [= -> ->]; done. Qed.

Lemma process_video_Normal_inv
    (VIDEOS_DIR SUBTITLES_DIR OUTPUT_DIR videoFile : string) (s s' : State) :
  process_video W VIDEOS_DIR SUBTITLES_DIR OUTPUT_DIR videoFile s = (Normal (), s') →
  ∃ segments translated s1,
    createTranscription W
      (path_join W (dirname W)
         (path_basename W (path_join W VIDEOS_DIR videoFile)
            (path_extname W (path_join W VIDEOS_DIR videoFile)) +:+ ".mp3"))
      "whisper-1" (prompt_fromLang W) = Fulfilled segments
    ∧ requests s1 = requests s
    ∧ (translateSegmentsWithGPT (chatCompletion_result W)
         (settle_order W videoFile) segments (prompt_fromLang W)
         (prompt_toLang W) "gpt-4" s1).1 = Normal translated
    ∧ requests s' = (requests s ++
        (translation_request (prompt_fromLang W) (prompt_toLang W) "gpt-4"
           <$> segments))%list
    ∧ files s' =
        delete
          (path_join W (dirname W)
             (path_basename W (path_join W VIDEOS_DIR videoFile)
                (path_extname W (path_join W VIDEOS_DIR videoFile)) +:+ ".mp3"))
          (<[path_join W OUTPUT_DIR
               (path_basename W videoFile (path_extname W videoFile)
                +:+ " with subtitles.mp4") :=
               VideoWith (path_join W VIDEOS_DIR videoFile)
                 (path_join W SUBTITLES_DIR
                    (path_basename W videoFile (path_extname W videoFile)
                     +:+ " with subtitles.srt"))]>
             (<[path_join W SUBTITLES_DIR
                  (path_basename W videoFile (path_extname W videoFile)
                   +:+ " with subtitles.srt") :=
                  TextFile (buildSrtFromSegments translated)]>
                (<[path_join W (dirname W)
                     (path_basename W (path_join W VIDEOS_DIR videoFile)
                        (path_extname W (path_join W VIDEOS_DIR videoFile))
                      +:+ ".mp3") :=
                     AudioOf (path_join W VIDEOS_DIR videoFile)]> (files s)))).
Proof.
  unfold process_video, extractAudio, burnSubtitles, fs_writeFile, fs_remove.
  cbv zeta. intros Hrun.
  repeat match goal with
  | H : (_ ≫= _) _ = (Normal _, _) |- _ =>
      let H' := fresh "Hstep" in
      apply bind_Normal_inv in H as (? & ? & H' & H)
  end.
  repeat match goal with
  | H : await _ _ = (Normal _, _) |- _ =>
      apply await_Normal_inv in H as [H ->]
  | H : console_log _ _ = (Normal _, _) |- _ =>
      unfold console_log in H; injection H as ?
  | H : set_file _ _ _ = (Normal _, _) |- _ =>
      unfold set_file in H; injection H as ?
  | H : unset_file _ _ = (Normal _, _) |- _ =>
      unfold unset_file in H; injection H as ?
  | H : mret _ _ = (Normal _, _) |- _ =>
      unfold mret, M_ret in H; injection H as ? ?
  end.
  subst.
  match goal with
  | H : translateSegmentsWithGPT _ _ ?segs _ _ _ ?s1 = (Normal ?tr, ?s2) |- _ =>
      pose proof (translate_state (chatCompletion_result W)
                    (settle_order W videoFile) segs (prompt_fromLang W)
                    (prompt_toLang W) "gpt-4" s1) as Hstate;
      rewrite H in Hstate; cbn [snd] in Hstate; subst s2;
      exists segs, tr, s1
  end.
  split; [done|]. split; [done|].
  split; [by match goal with H : translateSegmentsWithGPT _ _ _ _ _ _ _ = _ |- _ =>
                rewrite H end|].
  split; reflexivity.
Qed.
End MainFacts.

(** X15.  When the processing of a video completes, the audio file
    extracted for it is gone and, unless the two paths coincide, the output
    path holds the video composed from the source video and the subtitle
    file. *)
Theorem process_video_completes {RT : Runtime} (W : World)
    (VIDEOS_DIR SUBTITLES_DIR OUTPUT_DIR videoFile : string) (s s' : State) :
  process_video W VIDEOS_DIR SUBTITLES_DIR OUTPUT_DIR videoFile s = (Normal (), s') →
  files s' !!
    path_join W (dirname W)
      (path_basename W (path_join W VIDEOS_DIR videoFile)
         (path_extname W (path_join W VIDEOS_DIR videoFile)) +:+ ".mp3")
  = None
  ∧ (path_join W OUTPUT_DIR
       (path_basename W videoFile (path_extname W videoFile)
        +:+ " with subtitles.mp4")
     ≠ path_join W (dirname W)
         (path_basename W (path_join W VIDEOS_DIR videoFile)
            (path_extname W (path_join W VIDEOS_DIR videoFile)) +:+ ".mp3") →
     files s' !!
       path_join W OUTPUT_DIR
         (path_basename W videoFile (path_extname W videoFile)
          +:+ " with subtitles.mp4")
     = Some (VideoWith (path_join W VIDEOS_DIR videoFile)
               (path_join W SUBTITLES_DIR
                  (path_basename W videoFile (path_extname W videoFile)
                   +:+ " with subtitles.srt")))).
Proof.
  intros Hrun.
  apply process_video_Normal_inv in Hrun
    as (segments & translated & s1 & _ & _ & _ & _ & ->).
  split; [apply lookup_delete_eq|].
  intros Hne. rewrite lookup_delete_ne by done. apply lookup_insert_eq.
Qed.

Lemma process_video_completes_witness :
  files (@process_video exampleRuntime (batch_world true) "/app/videos"
           "/app/subtitles" "/app/with-subtitles" "a.mp4" initial_state).2
    !! "/app/a.mp3" = None
  ∧ files (@process_video exampleRuntime (batch_world true) "/app/videos"
             "/app/subtitles" "/app/with-subtitles" "a.mp4" initial_state).2
      !! "/app/with-subtitles/a with subtitles.mp4"
    = Some (VideoWith "/app/videos/a.mp4" "/app/subtitles/a with subtitles.srt").
Proof.
  destruct (@process_video_completes exampleRuntime (batch_world true)
              "/app/videos" "/app/subtitles" "/app/with-subtitles" "a.mp4"
              initial_state
              (@process_video exampleRuntime (batch_world true) "/app/videos"
                 "/app/subtitles" "/app/with-subtitles" "a.mp4"
                 initial_state).2) as [Haudio Hout].
  - vm_compute. reflexivity.
  - split; [exact Haudio|]. apply Hout. vm_compute. discriminate.
Defined.

(** X16.  When the processing of a video completes, the subtitle file
    holds the document built from what the translator returned for the
    segments of the transcription, and one request per transcribed segment
    was added to the log. *)
Theorem process_video_writes_document {RT : Runtime} (W : World)
    (VIDEOS_DIR SUBTITLES_DIR OUTPUT_DIR videoFile : string) (s s' : State) :
  process_video W VIDEOS_DIR SUBTITLES_DIR OUTPUT_DIR videoFile s = (Normal (), s') →
  path_join W SUBTITLES_DIR
    (path_basename W videoFile (path_extname W videoFile) +:+ " with subtitles.srt")
  ≠ path_join W (dirname W)
      (path_basename W (path_join W VIDEOS_DIR videoFile)
         (path_extname W (path_join W VIDEOS_DIR videoFile)) +:+ ".mp3") →
  path_join W SUBTITLES_DIR
    (path_basename W videoFile (path_extname W videoFile) +:+ " with subtitles.srt")
  ≠ path_join W OUTPUT_DIR
      (path_basename W videoFile (path_extname W videoFile)
       +:+ " with subtitles.mp4") →
  ∃ segments translated s1,
    createTranscription W
      (path_join W (dirname W)
         (path_basename W (path_join W VIDEOS_DIR videoFile)
            (path_extname W (path_join W VIDEOS_DIR videoFile)) +:+ ".mp3"))
      "whisper-1" (prompt_fromLang W) = Fulfilled segments
    ∧ requests s1 = requests s
    ∧ (translateSegmentsWithGPT (chatCompletion_result W)
         (settle_order W videoFile) segments (prompt_fromLang W)
         (prompt_toLang W) "gpt-4" s1).1 = Normal translated
    ∧ files s' !!
        path_join W SUBTITLES_DIR
          (path_basename W videoFile (path_extname W videoFile)
           +:+ " with subtitles.srt")
      = Some (TextFile (buildSrtFromSegments translated))
    ∧ requests s' =
        (requests s ++
         (translation_request (prompt_fromLang W) (prompt_toLang W) "gpt-4"
            <$> segments))%list.
Proof.
  intros Hrun Hne1 Hne2.
  apply process_video_Normal_inv in Hrun
    as (segments & translated & s1 & Htr & Hreq & Hrun & Hrequests & Hfiles).
  exists segments, translated, s1.
  repeat (split; [done|]). split; [|done].
  rewrite Hfiles, lookup_delete_ne, lookup_insert_ne by done.
  apply lookup_insert_eq.
Qed.

Lemma process_video_writes_document_witness :
  ∃ translated,
    files (@process_video exampleRuntime (batch_world true) "/app/videos"
             "/app/subtitles" "/app/with-subtitles" "a.mp4" initial_state).2
      !! "/app/subtitles/a with subtitles.srt"
    = Some (TextFile (@buildSrtFromSegments exampleRuntime translated)).
Proof.
  destruct (@process_video_writes_document exampleRuntime (batch_world true)
              "/app/videos" "/app/subtitles" "/app/with-subtitles" "a.mp4"
              initial_state
              (@process_video exampleRuntime (batch_world true) "/app/videos"
                 "/app/subtitles" "/app/with-subtitles" "a.mp4"
                 initial_state).2)
    as (segments & translated & s1 & _ & _ & _ & Hfile & _).
  - vm_compute. reflexivity.
  - vm_compute. discriminate.
  - vm_compute. discriminate.
  - exists translated. exact Hfile.
Defined.

(** X17.  When the audio extraction fails, the processing of the video
    ends at once with that error: only the processing line was logged, no
    file was written and no request issued. *)
Theorem process_video_extraction_failure {RT : Runtime} (W : World)
    (VIDEOS_DIR SUBTITLES_DIR OUTPUT_DIR videoFile : string) (s : State) (e : error) :
  ffmpeg_extract W (path_join W VIDEOS_DIR videoFile)
    (path_join W (dirname W)
       (path_basename W (path_join W VIDEOS_DIR videoFile)
          (path_extname W (path_join W VIDEOS_DIR videoFile)) +:+ ".mp3"))
    = Rejected e →
  process_video W VIDEOS_DIR SUBTITLES_DIR OUTPUT_DIR videoFile s
  = (Throw e,
     {| files := files s;
        console := console s ++ [Log (LF +:+ "[PROCESSANDO]: " +:+ videoFile)];
        requests := requests s |}).
Proof.
  intros Hextract.
  unfold process_video, extractAudio. cbv zeta.
  unfold mbind, M_bind, console_log. rewrite Hextract. reflexivity.
Qed.

(** X18.  When the directory holds no file with a video extension, main
    logs that no video was found and ends, with no file written and no
    request issued. *)
Theorem main_no_video {RT : Runtime} (W : World) (s : State) (found : list string) :
  ensureDir_result W (path_join W (dirname W) "subtitles") = Fulfilled () →
  ensureDir_result W (path_join W (dirname W) "with-subtitles") = Fulfilled () →
  readdir_result W (path_join W (dirname W) "videos") = Fulfilled found →
  filter (λ f, toLowerCase W (path_extname W f) ∈ validExtensions) found = [] →
  main W s =
    (Normal (),
     {| files := files s;
        console := console s ++
          [Log "Nenhum arquivo de vídeo encontrado em ./videos"];
        requests := requests s |}).
Proof.
  intros Hsub Hout Hread Hfilter.
  unfold main, try_catch. cbv zeta.
  rewrite (bind_Normal _ _ s s ()) by (unfold fs_ensureDir; by rewrite Hsub).
  rewrite (bind_Normal _ _ s s ()) by (unfold fs_ensureDir; by rewrite Hout).
  rewrite (bind_Normal _ _ s s found) by (unfold fs_readdir; by rewrite Hread).
  rewrite Hfilter. reflexivity.
Qed.

(** X19.  When creating one of the output directories or reading the
    video directory fails, main reports that error as the general error and
    ends, with nothing else done. *)
Theorem main_setup_failure {RT : Runtime} (W : World) (s : State) (e : error) :
  ensureDir_result W (path_join W (dirname W) "subtitles") = Rejected e
  ∨ (ensureDir_result W (path_join W (dirname W) "subtitles") = Fulfilled ()
     ∧ ensureDir_result W (path_join W (dirname W) "with-subtitles") = Rejected e)
  ∨ (ensureDir_result W (path_join W (dirname W) "subtitles") = Fulfilled ()
     ∧ ensureDir_result W (path_join W (dirname W) "with-subtitles") = Fulfilled ()
     ∧ readdir_result W (path_join W (dirname W) "videos") = Rejected e) →
  main W s =
    (Normal (),
     {| files := files s;
        console := console s ++ [Error "Erro geral:" e];
        requests := requests s |}).
Proof.
  intros [Hsub | [[Hsub Hout] | (Hsub & Hout & Hread)]];
    unfold main, try_catch; cbv zeta.
  - rewrite (bind_Throw _ _ s s e) by (unfold fs_ensureDir; by rewrite Hsub).
    reflexivity.
  - rewrite (bind_Normal _ _ s s ()) by (unfold fs_ensureDir; by rewrite Hsub).
    rewrite (bind_Throw _ _ s s e) by (unfold fs_ensureDir; by rewrite Hout).
    reflexivity.
  - rewrite (bind_Normal _ _ s s ()) by (unfold fs_ensureDir; by rewrite Hsub).
    rewrite (bind_Normal _ _ s s ()) by (unfold fs_ensureDir; by rewrite Hout).
    rewrite (bind_Throw _ _ s s e) by (unfold fs_readdir; by rewrite Hread).
    reflexivity.
Qed.

(** X20.  main never ends with an exception: every error of its body is
    caught and logged. *)
Theorem main_never_throws {RT : Runtime} (W : World) (s : State) (e : error) :
  (main W s).1 ≠ Throw e.
Proof.
  unfold main, try_catch.
  match goal with
  | |- (match ?body with _ => _ end).1 ≠ _ =>
      destruct body as [[[] | e' |] s']
  end; discriminate.
Qed.

Lemma process_video_extraction_failure_witness :
  @process_video exampleRuntime
    (custom_world (Fulfilled ["a.mp4"]) (Rejected (IOError "ffmpeg exited with code 1")))
    "/app/videos" "/app/subtitles" "/app/with-subtitles" "a.mp4" initial_state
  = (Throw (IOError "ffmpeg exited with code 1"),
     {| files := ∅; console := [Log (LF +:+ "[PROCESSANDO]: a.mp4")];
        requests := [] |}).
Proof.
  exact (@process_video_extraction_failure exampleRuntime
           (custom_world (Fulfilled ["a.mp4"])
              (Rejected (IOError "ffmpeg exited with code 1")))
           "/app/videos" "/app/subtitles" "/app/with-subtitles" "a.mp4"
           initial_state (IOError "ffmpeg exited with code 1") eq_refl).
Defined.

Lemma main_no_video_witness :
  @main exampleRuntime
    (custom_world (Fulfilled ["notes.txt"; "README"]) (Fulfilled ())) initial_state
  = (Normal (),
     {| files := ∅;
        console := [Log "Nenhum arquivo de vídeo encontrado em ./videos"];
        requests := [] |}).
Proof.
  apply (@main_no_video exampleRuntime
           (custom_world (Fulfilled ["notes.txt"; "README"]) (Fulfilled ()))
           initial_state ["notes.txt"; "README"]).
  - reflexivity.
  - reflexivity.
  - reflexivity.
  - vm_compute. reflexivity.
Defined.

Lemma main_setup_failure_witness :
  @main exampleRuntime
    (custom_world (Rejected (IOError "ENOENT: no such directory")) (Fulfilled ()))
    initial_state
  = (Normal (),
     {| files := ∅;
        console := [Error "Erro geral:" (IOError "ENOENT: no such directory")];
        requests := [] |}).
Proof.
  apply (@main_setup_failure exampleRuntime
           (custom_world (Rejected (IOError "ENOENT: no such directory"))
              (Fulfilled ()))
           initial_state (IOError "ENOENT: no such directory")).
  right. right. repeat split; reflexivity.
Defined.

(** X21.  Output names are built from the base name alone: when two
    videos of a batch have the same base name and both complete, the output
    path of the first holds the video of the second. *)
Theorem same_base_name_overwrites {RT : Runtime} (W : World)
    (VIDEOS_DIR SUBTITLES_DIR OUTPUT_DIR first second : string) (s s' : State) :
  path_basename W first (path_extname W first)
    = path_basename W second (path_extname W second) →
  for_of [first; second] (process_video W VIDEOS_DIR SUBTITLES_DIR OUTPUT_DIR) s
    = (Normal (), s') →
  path_join W OUTPUT_DIR
    (path_basename W second (path_extname W second) +:+ " with subtitles.mp4")
  ≠ path_join W (dirname W)
      (path_basename W (path_join W VIDEOS_DIR second)
         (path_extname W (path_join W VIDEOS_DIR second)) +:+ ".mp3") →
  files s' !!
    path_join W OUTPUT_DIR
      (path_basename W first (path_extname W first) +:+ " with subtitles.mp4")
  = Some (VideoWith (path_join W VIDEOS_DIR second)
            (path_join W SUBTITLES_DIR
               (path_basename W second (path_extname W second)
                +:+ " with subtitles.srt"))).
Proof.
  intros Hbase Hrun Hne. cbn [for_of] in Hrun.
  apply bind_Normal_inv in Hrun as ([] & s1 & _ & Hrun).
  apply bind_Normal_inv in Hrun as ([] & s2 & Hsecond & Hrun).
  injection Hrun as <-.
  apply process_video_Normal_inv in Hsecond
    as (segments & translated & s0 & _ & _ & _ & _ & ->).
  rewrite Hbase, lookup_delete_ne by done. apply lookup_insert_eq.
Qed.

Lemma same_base_name_overwrites_witness :
  files (for_of ["a.mp4"; "a.mov"]
           (@process_video exampleRuntime (batch_world true) "/app/videos"
              "/app/subtitles" "/app/with-subtitles") initial_state).2
    !! "/app/with-subtitles/a with subtitles.mp4"
  = Some (VideoWith "/app/videos/a.mov" "/app/subtitles/a with subtitles.srt").
Proof.
  apply (@same_base_name_overwrites exampleRuntime (batch_world true)
           "/app/videos" "/app/subtitles" "/app/with-subtitles" "a.mp4" "a.mov"
           initial_state).
  - vm_compute. reflexivity.
  - vm_compute. reflexivity.
  - vm_compute. discriminate.
Defined.

(** ** Telling rendered times apart *)









